(** * osu-collector-dl: the download manager

    A shallow embedding of [src/core/DownloadManager.ts]: the songs-folder
    indexer, the file name resolver, the per-beatmap retry chain of
    [_downloadFile] and the orchestration done by [bulkDownload] on top of
    the p-queue scheduler.

    Conventions.
    - JavaScript strings are byte strings ([string]); every character the
      code inspects (digits, [;], [%], the forbidden path characters) is
      ASCII, and decoded code points are kept in their UTF-8 form.
    - Beatmap set ids are natural numbers ([N]); [Number_toString] is their
      decimal rendering.
    - An [async] function is cut at its [await]: the code that runs between
      two suspension points is one function on the manager state. *)

From Stdlib Require Import NArith Ascii String DecimalString DecimalFacts DecimalN.
From stdpp Require Import gmap strings list.

Local Open Scope string_scope.
Local Open Scope list_scope.

(** ** JavaScript primitives used by the manager *)

Module JS.

(** [Number.prototype.toString] on a non-negative integer. *)
Definition Number_toString (n : N) : string :=
  NilEmpty.string_of_uint (N.to_uint n).

(** The character class [\d]. *)
Definition is_digit (c : ascii) : bool :=
  let n := nat_of_ascii c in (48 <=? n)%nat && (n <=? 57)%nat.

Fixpoint take_digits (s : string) : string :=
  match s with
  | String c rest => if is_digit c then String c (take_digits rest) else EmptyString
  | EmptyString => EmptyString
  end.

(** [file.match(/^(\d+)/)]: the result is [match[1]], the longest run of
    digits at the start of [file], or [None] (null) when there is none. *)
Definition match_leading_digits (file : string) : option string :=
  match take_digits file with
  | EmptyString => None
  | tok => Some tok
  end.

Fixpoint strip_prefix (p s : string) : option string :=
  match p, s with
  | EmptyString, _ => Some s
  | String a p', String b s' => if Ascii.eqb a b then strip_prefix p' s' else None
  | String _ _, EmptyString => None
  end.

(** The greedy class [[^;]+] read from the head of [s]. *)
Fixpoint take_until_semicolon (s : string) : string :=
  match s with
  | String c rest =>
      if Ascii.eqb c ";" then EmptyString else String c (take_until_semicolon rest)
  | EmptyString => EmptyString
  end.

(** [/filename=([^;]+)/g.exec(s)], the regular expression being a fresh
    literal (lastIndex 0): the leftmost position where [filename=] is
    followed by at least one character other than [;]. The result is the
    capture group. *)
Fixpoint exec_filename (s : string) : option string :=
  let later :=
    match s with
    | String _ rest => exec_filename rest
    | EmptyString => None
    end in
  match strip_prefix "filename=" s with
  | Some rest =>
      match take_until_semicolon rest with
      | EmptyString => later
      | tok => Some tok
      end
  | None => later
  end.

Definition hex_value (c : ascii) : option N :=
  let n := N_of_ascii c in
  if (48 <=? n)%N && (n <=? 57)%N then Some (n - 48)%N
  else if (65 <=? n)%N && (n <=? 70)%N then Some (n - 55)%N
  else if (97 <=? n)%N && (n <=? 102)%N then Some (n - 87)%N
  else None.

(** Number of octets announced by a lead octet [b >= 0x80]; [None] for a
    stray continuation octet and for more than four octets. *)
Definition utf8_length (b : N) : option nat :=
  if (b <? 192)%N then None
  else if (b <? 224)%N then Some 2%nat
  else if (b <? 240)%N then Some 3%nat
  else if (b <? 248)%N then Some 4%nat
  else None.

Definition is_cont (lo hi b : N) : bool := (lo <=? b)%N && (b <=? hi)%N.

(** Well-formed UTF-8 octet sequences of length two to four (no overlong
    form, no surrogate, nothing above U+10FFFF). *)
Definition valid_utf8 (octets : list N) : bool :=
  match octets with
  | [b0; b1] => is_cont 194 223 b0 && is_cont 128 191 b1
  | [b0; b1; b2] =>
      (if (b0 =? 224)%N then is_cont 160 191 b1
       else if (b0 =? 237)%N then is_cont 128 159 b1
       else is_cont 225 239 b0 && is_cont 128 191 b1)
      && is_cont 128 191 b2
  | [b0; b1; b2; b3] =>
      (if (b0 =? 240)%N then is_cont 144 191 b1
       else if (b0 =? 244)%N then is_cont 128 143 b1
       else is_cont 241 243 b0 && is_cont 128 191 b1)
      && is_cont 128 191 b2 && is_cont 128 191 b3
  | _ => false
  end.

Definition string_of_octets (octets : list N) : string :=
  string_of_list_ascii (map ascii_of_N octets).

(** The Decode operation of ECMAScript with an empty set of preserved
    escapes. [need] is the number of continuation escapes still expected
    and [acc] the octets of the code point being read. [None] stands for
    the URIError. *)
Fixpoint decode (need : nat) (acc : list N) (s : string) : option string :=
  match s with
  | EmptyString => match need with O => Some EmptyString | S _ => None end
  | String c rest =>
      if Ascii.eqb c "%" then
        match rest with
        | String h (String l rest') =>
            match hex_value h, hex_value l with
            | Some a, Some b =>
                let B := (16 * a + b)%N in
                match need with
                | O =>
                    if (B <? 128)%N
                    then String (ascii_of_N B) <$> decode O [] rest'
                    else match utf8_length B with
                         | Some n => decode (pred n) [B] rest'
                         | None => None
                         end
                | S O =>
                    if valid_utf8 (acc ++ [B])
                    then String.append (string_of_octets (acc ++ [B])) <$> decode O [] rest'
                    else None
                | S need' => decode need' (acc ++ [B]) rest'
                end
            | _, _ => None
            end
        | _ => None
        end
      else
        match need with
        | O => String c <$> decode O [] rest
        | S _ => None
        end
  end.

(** [decodeURIComponent]; [None] when it throws. *)
Definition decodeURIComponent (s : string) : option string := decode O [] s.

End JS.

(** ** Data model *)

(** [struct/BeatMapSet]: the manager only reads the numeric [id]. *)
Record BeatMapSet := { id : N }.

(** What a [catch (e)] of [_downloadFile] can receive. *)
Inductive Exn :=
| StatusCode (status : N)          (* throw `Status code: ${response.status}` *)
| BodyIsNull                       (* throw "res.body is null" *)
| FetchRejected                    (* Requestor.fetchDownloadCollection rejects *)
| StreamBroken                     (* iterating response.body raises *)
| OcdlError (errorType : string).  (* new OcdlError(errorType, e) *)

(** [DownloadManagerEvents]: one constructor per event, with its arguments. *)
Inductive Event :=
| EvDownloaded (b : BeatMapSet)
| EvError (b : BeatMapSet) (e : Exn)
| EvRetrying (b : BeatMapSet)
| EvDownloading (b : BeatMapSet)
| EvRateLimited
| EvEnd (notDownloaded : list BeatMapSet)
| EvIndexing (indexed total : nat)
| EvSkipped (b : BeatMapSet).

(** The body stream of a response: it is read to its end, or it raises
    after some chunks. *)
Inductive Body :=
| Readable (chunks : list string)
| Broken (chunks : list string).

(** The part of an undici [Response] the manager looks at;
    [contentDisposition] is [headers.get("content-disposition")]. *)
Record Response := {
  status : N;
  contentDisposition : option string;
  body : option Body
}.

(** How the awaited [Requestor.fetchDownloadCollection] settles. *)
Inductive FetchOutcome :=
| Rejected
| Resolved (response : Response).

(** [struct/Config]: the fields the manager reads. *)
Module Config.
Record t := {
  parallel : bool;
  concurrency : nat;
  intervalCap : nat;
  interval : nat
}.

(** The values the constructor falls back to. *)
Definition defaults : t :=
  {| parallel := true; concurrency := 3; intervalCap := 50; interval := 60 |}.
End Config.

(** The [options] argument of [_downloadFile] together with its target. *)
Record Attempt := {
  beatMapSet : BeatMapSet;
  retries : nat;
  alt : bool
}.

(** The two closures handed to [queue.add]: the one of [bulkDownload], which
    counts the beatmap set as processed once [_downloadFile] returns, and the
    one of the 429 branch, which only calls [_downloadFile]. *)
Inductive Wrapper := FromBulk | FromRateLimit.

Record Job := { wrapper : Wrapper; target : BeatMapSet }.

(** A job that was started and is suspended on the fetch of [attempt]. *)
Record Running := { job : Job; attempt : Attempt }.

(** The queue is the external p-queue package. The model keeps what the
    manager relies on: the FIFO of jobs waiting to start, the number of
    started jobs that have not finished, the pause flag and the concurrency
    property. The queue looks for a job to start when one is added, when one
    finishes, when [concurrency] is assigned and when it is resumed; whether
    it then starts one also depends on the interval cap, so every start is a
    step of its own, [StartNext], enabled when the queue is not paused and
    fewer than [concurrency] jobs are pending. [idle] is emitted when a job
    finishes or the queue is resumed and nothing is waiting or pending. *)
Module PQueue.
Record t := {
  concurrency : nat;
  isPaused : bool;
  _queue : list Job;
  _pendingCount : nat
}.

Definition create (concurrency : nat) : t :=
  {| concurrency := concurrency; isPaused := false; _queue := []; _pendingCount := 0 |}.

Definition set_concurrency (n : nat) (q : t) : t :=
  {| concurrency := n; isPaused := isPaused q;
     _queue := _queue q; _pendingCount := _pendingCount q |}.

Definition set_isPaused (b : bool) (q : t) : t :=
  {| concurrency := concurrency q; isPaused := b;
     _queue := _queue q; _pendingCount := _pendingCount q |}.

Definition pause : t -> t := set_isPaused true.

(** [add]: enqueue at the back. *)
Definition add (j : Job) (q : t) : t :=
  {| concurrency := concurrency q; isPaused := isPaused q;
     _queue := _queue q ++ [j]; _pendingCount := _pendingCount q |}.

(** Whether the head job may be started now. *)
Definition can_start (q : t) : bool :=
  negb (isPaused q) && (_pendingCount q <? concurrency q)%nat.

(** Take the head job out of the queue and count it as pending. *)
Definition dequeue (q : t) : option (Job * t) :=
  match _queue q with
  | j :: rest =>
      Some (j, {| concurrency := concurrency q; isPaused := isPaused q;
                  _queue := rest; _pendingCount := S (_pendingCount q) |})
  | [] => None
  end.

(** A started job has finished. *)
Definition finished (q : t) : t :=
  {| concurrency := concurrency q; isPaused := isPaused q;
     _queue := _queue q; _pendingCount := pred (_pendingCount q) |}.

(** The condition under which the queue emits [idle]. *)
Definition is_idle (q : t) : bool :=
  match _queue q with
  | [] => (_pendingCount q =? 0)%nat
  | _ :: _ => false
  end.
End PQueue.

(** The state of a run: the fields of the [DownloadManager] class, the two
    counters local to [bulkDownload], and what the manager has done to the
    outside world. *)
Record State := {
  (* class fields *)
  config : Config.t;
  songsDirectory : string;
  existingBeatmaps : gmap string bool;
  indexedSongs : nat;
  totalSongs : nat;
  queue : PQueue.t;
  downloadedBeatMapSetSize : nat;
  notDownloadedBeatMapSet : list BeatMapSet;
  testRequest : bool;
  (* locals of bulkDownload captured by the queued closures *)
  processedCount : nat;
  totalCount : nat;
  (* started jobs, each suspended on its fetch *)
  running : list Running;
  (* the outside world *)
  emitted : list Event;                 (* events, oldest first *)
  requested : list (N * bool);          (* fetchDownloadCollection(id, {alternative}) *)
  created : list string;                (* createWriteStream(join(path, fileName)) *)
  timers : list N                       (* setTimeout delays in ms, queue.start() pending *)
}.

(** Field updates. *)
Definition upd_songsDirectory (f : string -> string) (st : State) : State :=
  {| config := config st;
     songsDirectory := f (songsDirectory st);
     existingBeatmaps := existingBeatmaps st;
     indexedSongs := indexedSongs st;
     totalSongs := totalSongs st;
     queue := queue st;
     downloadedBeatMapSetSize := downloadedBeatMapSetSize st;
     notDownloadedBeatMapSet := notDownloadedBeatMapSet st;
     testRequest := testRequest st;
     processedCount := processedCount st;
     totalCount := totalCount st;
     running := running st;
     emitted := emitted st;
     requested := requested st;
     created := created st;
     timers := timers st |}.

Definition upd_existingBeatmaps (f : gmap string bool -> gmap string bool) (st : State) : State :=
  {| config := config st;
     songsDirectory := songsDirectory st;
     existingBeatmaps := f (existingBeatmaps st);
     indexedSongs := indexedSongs st;
     totalSongs := totalSongs st;
     queue := queue st;
     downloadedBeatMapSetSize := downloadedBeatMapSetSize st;
     notDownloadedBeatMapSet := notDownloadedBeatMapSet st;
     testRequest := testRequest st;
     processedCount := processedCount st;
     totalCount := totalCount st;
     running := running st;
     emitted := emitted st;
     requested := requested st;
     created := created st;
     timers := timers st |}.

Definition upd_indexedSongs (f : nat -> nat) (st : State) : State :=
  {| config := config st;
     songsDirectory := songsDirectory st;
     existingBeatmaps := existingBeatmaps st;
     indexedSongs := f (indexedSongs st);
     totalSongs := totalSongs st;
     queue := queue st;
     downloadedBeatMapSetSize := downloadedBeatMapSetSize st;
     notDownloadedBeatMapSet := notDownloadedBeatMapSet st;
     testRequest := testRequest st;
     processedCount := processedCount st;
     totalCount := totalCount st;
     running := running st;
     emitted := emitted st;
     requested := requested st;
     created := created st;
     timers := timers st |}.

Definition upd_totalSongs (f : nat -> nat) (st : State) : State :=
  {| config := config st;
     songsDirectory := songsDirectory st;
     existingBeatmaps := existingBeatmaps st;
     indexedSongs := indexedSongs st;
     totalSongs := f (totalSongs st);
     queue := queue st;
     downloadedBeatMapSetSize := downloadedBeatMapSetSize st;
     notDownloadedBeatMapSet := notDownloadedBeatMapSet st;
     testRequest := testRequest st;
     processedCount := processedCount st;
     totalCount := totalCount st;
     running := running st;
     emitted := emitted st;
     requested := requested st;
     created := created st;
     timers := timers st |}.

Definition upd_queue (f : PQueue.t -> PQueue.t) (st : State) : State :=
  {| config := config st;
     songsDirectory := songsDirectory st;
     existingBeatmaps := existingBeatmaps st;
     indexedSongs := indexedSongs st;
     totalSongs := totalSongs st;
     queue := f (queue st);
     downloadedBeatMapSetSize := downloadedBeatMapSetSize st;
     notDownloadedBeatMapSet := notDownloadedBeatMapSet st;
     testRequest := testRequest st;
     processedCount := processedCount st;
     totalCount := totalCount st;
     running := running st;
     emitted := emitted st;
     requested := requested st;
     created := created st;
     timers := timers st |}.

Definition upd_downloadedBeatMapSetSize (f : nat -> nat) (st : State) : State :=
  {| config := config st;
     songsDirectory := songsDirectory st;
     existingBeatmaps := existingBeatmaps st;
     indexedSongs := indexedSongs st;
     totalSongs := totalSongs st;
     queue := queue st;
     downloadedBeatMapSetSize := f (downloadedBeatMapSetSize st);
     notDownloadedBeatMapSet := notDownloadedBeatMapSet st;
     testRequest := testRequest st;
     processedCount := processedCount st;
     totalCount := totalCount st;
     running := running st;
     emitted := emitted st;
     requested := requested st;
     created := created st;
     timers := timers st |}.

Definition upd_notDownloadedBeatMapSet (f : list BeatMapSet -> list BeatMapSet) (st : State) : State :=
  {| config := config st;
     songsDirectory := songsDirectory st;
     existingBeatmaps := existingBeatmaps st;
     indexedSongs := indexedSongs st;
     totalSongs := totalSongs st;
     queue := queue st;
     downloadedBeatMapSetSize := downloadedBeatMapSetSize st;
     notDownloadedBeatMapSet := f (notDownloadedBeatMapSet st);
     testRequest := testRequest st;
     processedCount := processedCount st;
     totalCount := totalCount st;
     running := running st;
     emitted := emitted st;
     requested := requested st;
     created := created st;
     timers := timers st |}.

Definition upd_testRequest (f : bool -> bool) (st : State) : State :=
  {| config := config st;
     songsDirectory := songsDirectory st;
     existingBeatmaps := existingBeatmaps st;
     indexedSongs := indexedSongs st;
     totalSongs := totalSongs st;
     queue := queue st;
     downloadedBeatMapSetSize := downloadedBeatMapSetSize st;
     notDownloadedBeatMapSet := notDownloadedBeatMapSet st;
     testRequest := f (testRequest st);
     processedCount := processedCount st;
     totalCount := totalCount st;
     running := running st;
     emitted := emitted st;
     requested := requested st;
     created := created st;
     timers := timers st |}.

Definition upd_processedCount (f : nat -> nat) (st : State) : State :=
  {| config := config st;
     songsDirectory := songsDirectory st;
     existingBeatmaps := existingBeatmaps st;
     indexedSongs := indexedSongs st;
     totalSongs := totalSongs st;
     queue := queue st;
     downloadedBeatMapSetSize := downloadedBeatMapSetSize st;
     notDownloadedBeatMapSet := notDownloadedBeatMapSet st;
     testRequest := testRequest st;
     processedCount := f (processedCount st);
     totalCount := totalCount st;
     running := running st;
     emitted := emitted st;
     requested := requested st;
     created := created st;
     timers := timers st |}.

Definition upd_totalCount (f : nat -> nat) (st : State) : State :=
  {| config := config st;
     songsDirectory := songsDirectory st;
     existingBeatmaps := existingBeatmaps st;
     indexedSongs := indexedSongs st;
     totalSongs := totalSongs st;
     queue := queue st;
     downloadedBeatMapSetSize := downloadedBeatMapSetSize st;
     notDownloadedBeatMapSet := notDownloadedBeatMapSet st;
     testRequest := testRequest st;
     processedCount := processedCount st;
     totalCount := f (totalCount st);
     running := running st;
     emitted := emitted st;
     requested := requested st;
     created := created st;
     timers := timers st |}.

Definition upd_running (f : list Running -> list Running) (st : State) : State :=
  {| config := config st;
     songsDirectory := songsDirectory st;
     existingBeatmaps := existingBeatmaps st;
     indexedSongs := indexedSongs st;
     totalSongs := totalSongs st;
     queue := queue st;
     downloadedBeatMapSetSize := downloadedBeatMapSetSize st;
     notDownloadedBeatMapSet := notDownloadedBeatMapSet st;
     testRequest := testRequest st;
     processedCount := processedCount st;
     totalCount := totalCount st;
     running := f (running st);
     emitted := emitted st;
     requested := requested st;
     created := created st;
     timers := timers st |}.

Definition upd_emitted (f : list Event -> list Event) (st : State) : State :=
  {| config := config st;
     songsDirectory := songsDirectory st;
     existingBeatmaps := existingBeatmaps st;
     indexedSongs := indexedSongs st;
     totalSongs := totalSongs st;
     queue := queue st;
     downloadedBeatMapSetSize := downloadedBeatMapSetSize st;
     notDownloadedBeatMapSet := notDownloadedBeatMapSet st;
     testRequest := testRequest st;
     processedCount := processedCount st;
     totalCount := totalCount st;
     running := running st;
     emitted := f (emitted st);
     requested := requested st;
     created := created st;
     timers := timers st |}.

Definition upd_requested (f : list (N * bool) -> list (N * bool)) (st : State) : State :=
  {| config := config st;
     songsDirectory := songsDirectory st;
     existingBeatmaps := existingBeatmaps st;
     indexedSongs := indexedSongs st;
     totalSongs := totalSongs st;
     queue := queue st;
     downloadedBeatMapSetSize := downloadedBeatMapSetSize st;
     notDownloadedBeatMapSet := notDownloadedBeatMapSet st;
     testRequest := testRequest st;
     processedCount := processedCount st;
     totalCount := totalCount st;
     running := running st;
     emitted := emitted st;
     requested := f (requested st);
     created := created st;
     timers := timers st |}.

Definition upd_created (f : list string -> list string) (st : State) : State :=
  {| config := config st;
     songsDirectory := songsDirectory st;
     existingBeatmaps := existingBeatmaps st;
     indexedSongs := indexedSongs st;
     totalSongs := totalSongs st;
     queue := queue st;
     downloadedBeatMapSetSize := downloadedBeatMapSetSize st;
     notDownloadedBeatMapSet := notDownloadedBeatMapSet st;
     testRequest := testRequest st;
     processedCount := processedCount st;
     totalCount := totalCount st;
     running := running st;
     emitted := emitted st;
     requested := requested st;
     created := f (created st);
     timers := timers st |}.

Definition upd_timers (f : list N -> list N) (st : State) : State :=
  {| config := config st;
     songsDirectory := songsDirectory st;
     existingBeatmaps := existingBeatmaps st;
     indexedSongs := indexedSongs st;
     totalSongs := totalSongs st;
     queue := queue st;
     downloadedBeatMapSetSize := downloadedBeatMapSetSize st;
     notDownloadedBeatMapSet := notDownloadedBeatMapSet st;
     testRequest := testRequest st;
     processedCount := processedCount st;
     totalCount := totalCount st;
     running := running st;
     emitted := emitted st;
     requested := requested st;
     created := created st;
     timers := f (timers st) |}.

(** [this.emit(event, ...)] as seen by the listeners. The handlers that
    [bulkDownload] itself registers ([rateLimited], and [idle] on the queue)
    are run where the signal is raised, see [on_rateLimited] and [on_idle]. *)
Definition emit (e : Event) : State -> State :=
  upd_emitted (fun l => l ++ [e]).

(** ** The songs-folder index *)

(** [_indexSongsFolder(directory)]; [listing] is what [readdirSync(directory)]
    returns, [None] when it throws (the catch logs and leaves the state as
    it is). *)
Definition index_entry (st : State) (file : string) : State :=
  let st :=
    match JS.match_leading_digits file with
    | Some tok => upd_existingBeatmaps (fun m => <[tok := true]> m) st
    | None => st
    end in
  let st := upd_indexedSongs S st in
  emit (EvIndexing (indexedSongs st) (totalSongs st)) st.

Definition _indexSongsFolder (listing : option (list string)) (st : State) : State :=
  match listing with
  | Some files =>
      let st := upd_totalSongs (fun _ => length files) st in
      foldl index_entry st files
  | None => st
  end.

(** [this.existingBeatmaps.has(beatmapId.toString())]. *)
Definition _isBeatmapExisting (beatmapId : N) (st : State) : bool :=
  bool_decide (is_Some (existingBeatmaps st !! JS.Number_toString beatmapId)).

Definition setSongsDirectory (directory : string) (listing : option (list string))
    (st : State) : State :=
  _indexSongsFolder listing (upd_songsDirectory (fun _ => directory) st).

(** The state built by the constructor and the field initialisers. *)
Definition new_DownloadManager (cfg : Config.t) : State :=
  {| config := cfg;
     songsDirectory := EmptyString;
     existingBeatmaps := ∅;
     indexedSongs := 0;
     totalSongs := 0;
     queue := PQueue.create (if Config.parallel cfg then Config.concurrency cfg else 1);
     downloadedBeatMapSetSize := 0;
     notDownloadedBeatMapSet := [];
     testRequest := false;
     processedCount := 0;
     totalCount := 0;
     running := [];
     emitted := [];
     requested := [];
     created := [];
     timers := [] |}.

(** ** The file name resolver *)

Module Util.

Definition forbidden_chars : list ascii :=
  [" "; "/"; "<"; ">"; ":"; "034"; "\"; "|"; "?"; "*"]%char.

Definition is_forbidden (c : ascii) : bool :=
  existsb (Ascii.eqb c) forbidden_chars.

(** Modelled from the spec: [Util.replaceForbiddenChars] of [src/util],
    which is missing from the sources. The specification (section 4.2,
    step 4) has it strip the characters forbidden in a path segment
    (space, slash, angle brackets, colon, double quote, backslash, bar,
    question mark, star) and runs of them from the decoded name. *)
Fixpoint replaceForbiddenChars (str : string) : string :=
  match str with
  | String c rest =>
      if is_forbidden c then replaceForbiddenChars rest
      else String c (replaceForbiddenChars rest)
  | EmptyString => EmptyString
  end.

(** The two things the specification says about a space in a file name:
    section 4.2 lists it among the characters that are stripped, the first
    example of section 8 keeps it. *)
Inductive Reading := StripsSpace | KeepsSpace.

(** The forbidden characters other than the space. *)
Definition is_reserved (c : ascii) : bool :=
  is_forbidden c && negb (Ascii.eqb c " ").

(** Modelled from the spec: [Util.replaceForbiddenChars] of [src/util],
    which is missing from the sources, as the first example of section 8
    has it: the name keeps its spaces, and slash, angle brackets, colon,
    double quote, backslash, bar, question mark and star are stripped. *)
Fixpoint replaceReservedChars (str : string) : string :=
  match str with
  | String c rest =>
      if is_reserved c then replaceReservedChars rest
      else String c (replaceReservedChars rest)
  | EmptyString => EmptyString
  end.

(** Modelled from the spec: [Util.replaceForbiddenChars] under either
    reading. *)
Definition replaceForbiddenChars_as (reading : Reading) : string -> string :=
  match reading with
  | StripsSpace => replaceForbiddenChars
  | KeepsSpace => replaceReservedChars
  end.

End Util.

Section Resolver.

(** The resolver is written over any [replaceForbiddenChars]. *)
Variable replaceForbiddenChars : string -> string.

(** [_getFilename(response)]: [inl] is the exception it throws. *)
Definition _getFilename (response : Response) : Exn + string :=
  let fileName := "Untitled.osz" in
  match contentDisposition response with
  | Some (String c cd) =>
      match JS.exec_filename (String c cd) with
      | Some tok =>
          match JS.decodeURIComponent tok with
          | Some decoded => inr (replaceForbiddenChars decoded)
          | None => inl (OcdlError "FILE_NAME_EXTRACTION_FAILED")
          end
      | None => inr fileName
      end
  | Some EmptyString | None => inr fileName
  end.

End Resolver.

(** ** One download: [_downloadFile] *)

(** How the [try] block ends. *)
Inductive Completion :=
| Returned
| Threw (e : Exn).

(** The listener that [bulkDownload] registers on [rateLimited]. *)
Definition on_rateLimited (st : State) : State :=
  if PQueue.isPaused (queue st) then st
  else
    let st := upd_testRequest (fun _ => true) st in
    let st := upd_queue PQueue.pause st in
    let st := upd_queue (PQueue.set_concurrency 1) st in
    upd_timers (fun l => l ++ [60000%N]) st.

(** [Manager.config.parallel ? Manager.config.concurrency : 1]. *)
Definition configured_concurrency (cfg : Config.t) : nat :=
  if Config.parallel cfg then Config.concurrency cfg else 1.

(** The synchronous head of [_downloadFile], up to the awaited fetch. The
    directory check of lines 152 to 161 only touches the file system and is
    taken to succeed: an attempt in which [mkdirSync] throws goes to the
    [catch] before its fetch, and no attempt of this model does. What is
    proved about fetches is about the attempts that reach their fetch. *)
Definition _downloadFile_begin (a : Attempt) (st : State) : State :=
  let st := emit (EvDownloading (beatMapSet a)) st in
  upd_requested (fun l => l ++ [(id (beatMapSet a), alt a)]) st.

(** The rest of the [try] block, once the fetch has settled. Writing the
    chunks of the body is one step. *)
Definition _downloadFile_try (a : Attempt) (o : FetchOutcome) (st : State)
    : State * Completion :=
  match o with
  | Rejected => (st, Threw FetchRejected)
  | Resolved response =>
      if (status response =? 429)%N then
        let st := on_rateLimited (emit EvRateLimited st) in
        let st :=
          upd_queue (PQueue.add {| wrapper := FromRateLimit; target := beatMapSet a |}) st in
        (st, Returned)
      else if negb (status response =? 200)%N then
        (st, Threw (StatusCode (status response)))
      else
        let st :=
          if testRequest st then
            upd_queue (PQueue.set_concurrency (configured_concurrency (config st)))
              (upd_testRequest (fun _ => false) st)
          else st in
        match _getFilename Util.replaceForbiddenChars response with
        | inl e => (st, Threw e)
        | inr fileName =>
            let st := upd_created (fun l => l ++ [fileName]) st in
            match body response with
            | Some (Readable _) =>
                let st := upd_downloadedBeatMapSetSize S st in
                (emit (EvDownloaded (beatMapSet a)) st, Returned)
            | Some (Broken _) => (st, Threw StreamBroken)
            | None => (st, Threw BodyIsNull)
            end
        end
  end.

(** The [catch] block. With retries left, the recursive call runs up to its
    own fetch and the chain stays suspended on the new attempt; otherwise the
    beatmap set is recorded as not downloaded. *)
Definition _downloadFile_catch (a : Attempt) (e : Exn) (st : State)
    : State * option Attempt :=
  match retries a with
  | S r =>
      let st := emit (EvRetrying (beatMapSet a)) st in
      let a' := {| beatMapSet := beatMapSet a; retries := r; alt := (retries a =? 1)%nat |} in
      (_downloadFile_begin a' st, Some a')
  | O =>
      let st := emit (EvError (beatMapSet a) e) st in
      (upd_notDownloadedBeatMapSet (fun l => l ++ [beatMapSet a]) st, None)
  end.

(** An attempt whose fetch settles: [Some a'] when the call chain is now
    suspended on the attempt [a'], [None] when the outermost [_downloadFile]
    has returned. *)
Definition _downloadFile_settle (a : Attempt) (o : FetchOutcome) (st : State)
    : State * option Attempt :=
  match _downloadFile_try a o st with
  | (st, Returned) => (st, None)
  | (st, Threw e) => _downloadFile_catch a e st
  end.

(** [_downloadFile(beatMapSet, options)] run on its own, the successive
    fetches settling as [outcomes]: the result is the attempt left
    suspended when [outcomes] is used up, or [None] when the call has
    returned. *)
Fixpoint settle_all (a : Attempt) (outcomes : list FetchOutcome) (st : State)
    : State * option Attempt :=
  match outcomes with
  | [] => (st, Some a)
  | o :: outcomes' =>
      match _downloadFile_settle a o st with
      | (st', Some a') => settle_all a' outcomes' st'
      | (st', None) => (st', None)
      end
  end.

(** The default [options]. *)
Definition default_options (b : BeatMapSet) : Attempt :=
  {| beatMapSet := b; retries := 3; alt := false |}.

Definition _downloadFile (b : BeatMapSet) (outcomes : list FetchOutcome) (st : State)
    : State * option Attempt :=
  settle_all (default_options b) outcomes (_downloadFile_begin (default_options b) st).

(** ** The run: [bulkDownload] and the scheduler *)

(** The listener that [bulkDownload] registers on the queue's [idle]. *)
Definition on_idle (st : State) : State :=
  emit (EvEnd (notDownloadedBeatMapSet st)) st.

Definition idle_check (st : State) : State :=
  if PQueue.is_idle (queue st) then on_idle st else st.

(** The body of the [forEach] callback. [queue.add] may start the job at
    once; in the model every start is a [StartNext] step, so a call of
    [bulkDownload] in the code is [bulkDownload] here together with the
    starts that follow it, and its [downloading] events come between the
    [skipped] events rather than after them. *)
Definition bulkDownload_each (st : State) (b : BeatMapSet) : State :=
  if _isBeatmapExisting (id b) st then
    let st := upd_downloadedBeatMapSetSize S st in
    let st := emit (EvSkipped b) st in
    let st := upd_processedCount S st in
    if (processedCount st =? totalCount st)%nat
    then emit (EvEnd (notDownloadedBeatMapSet st)) st
    else st
  else upd_queue (PQueue.add {| wrapper := FromBulk; target := b |}) st.

(** [bulkDownload()], [beatMapSets] being the values of
    [Manager.collection.beatMapSets] in iteration order. *)
Definition bulkDownload (beatMapSets : list BeatMapSet) (st : State) : State :=
  let st := upd_processedCount (fun _ => 0) st in
  let st := upd_totalCount (fun _ => length beatMapSets) st in
  foldl bulkDownload_each st beatMapSets.

(** What runs after [_downloadFile] has returned to the queued closure: the
    closure of [bulkDownload] counts the beatmap set; then the queue takes
    the job off its pending count and signals [idle] when nothing is left. *)
Definition job_done (w : Wrapper) (st : State) : State :=
  let st :=
    match w with
    | FromBulk =>
        let st := upd_processedCount S st in
        if (processedCount st =? totalCount st)%nat
        then emit (EvEnd (notDownloadedBeatMapSet st)) st
        else st
    | FromRateLimit => st
    end in
  idle_check (upd_queue PQueue.finished st).

(** [queue.start()], called by the timer of [on_rateLimited]: the flag and
    the [idle] signal. The jobs the queue starts while it resumes are the
    [StartNext] steps that follow, so the timer callback of the code is
    this step together with those starts. *)
Definition queue_start (st : State) : State :=
  if PQueue.isPaused (queue st)
  then idle_check (upd_queue (PQueue.set_isPaused false) st)
  else st.

(** What can happen next: the queue starts its head job, the fetch of the
    [i]-th running job settles, or the oldest timer fires. *)
Inductive Action :=
| StartNext
| Settle (i : nat) (o : FetchOutcome)
| Timeout.

Definition step (act : Action) (st : State) : option State :=
  match act with
  | StartNext =>
      if PQueue.can_start (queue st) then
        match PQueue.dequeue (queue st) with
        | Some (j, q) =>
            let a := default_options (target j) in
            let st := _downloadFile_begin a (upd_queue (fun _ => q) st) in
            Some (upd_running (fun l => l ++ [{| job := j; attempt := a |}]) st)
        | None => None
        end
      else None
  | Settle i o =>
      match running st !! i with
      | Some r =>
          match _downloadFile_settle (attempt r) o st with
          | (st, Some a') =>
              Some (upd_running (fun l => <[i := {| job := job r; attempt := a' |}]> l) st)
          | (st, None) =>
              Some (job_done (wrapper (job r)) (upd_running (fun l => delete i l) st))
          end
      | None => None
      end
  | Timeout =>
      match timers st with
      | _ :: rest => Some (queue_start (upd_timers (fun _ => rest) st))
      | [] => None
      end
  end.

(** A schedule is a list of actions; an action that is not enabled does not
    happen. *)
Fixpoint run (acts : list Action) (st : State) : State :=
  match acts with
  | [] => st
  | act :: acts' =>
      match step act st with
      | Some st' => run acts' st'
      | None => run acts' st
      end
  end.

(** A fresh manager that indexes a songs folder and then downloads. *)
Definition session (cfg : Config.t) (listing : option (list string))
    (beatMapSets : list BeatMapSet) : State :=
  bulkDownload beatMapSets (setSongsDirectory "Songs" listing (new_DownloadManager cfg)).

(** Counting events of a kind. *)
Definition is_end (e : Event) : bool := match e with EvEnd _ => true | _ => false end.
Definition is_downloaded (e : Event) : bool := match e with EvDownloaded _ => true | _ => false end.
Definition is_skipped (e : Event) : bool := match e with EvSkipped _ => true | _ => false end.
Definition is_retrying (e : Event) : bool := match e with EvRetrying _ => true | _ => false end.
Definition is_error (e : Event) : bool := match e with EvError _ _ => true | _ => false end.

Definition count (p : Event -> bool) (l : list Event) : nat :=
  length (List.filter p l).

(** [getDownloadedBeatMapSetSize()]. *)
Definition getDownloadedBeatMapSetSize (st : State) : nat :=
  downloadedBeatMapSetSize st.

(** Whether a settled fetch makes the [try] block of [_downloadFile] throw:
    a rejected fetch, a status other than 200 and 429, or a 200 response
    whose file name cannot be resolved or whose body is missing or breaks. *)
Definition attempt_fails (o : FetchOutcome) : bool :=
  match o with
  | Rejected => true
  | Resolved response =>
      if (status response =? 429)%N then false
      else if negb (status response =? 200)%N then true
      else match _getFilename Util.replaceForbiddenChars response, body response with
           | inr _, Some (Readable _) => false
           | _, _ => true
           end
  end.

(** A response with the given status, no headers and no body. *)
Definition status_response (s : N) : FetchOutcome :=
  Resolved {| status := s; contentDisposition := None; body := None |}.

(** Schedules in which no fetch is answered with status 429. *)
Definition not_rate_limited (act : Action) : bool :=
  match act with
  | Settle _ (Resolved response) => negb (status response =? 429)%N
  | _ => true
  end.

Definition no_rate_limit (acts : list Action) : bool := forallb not_rate_limited acts.

(** No job is waiting in the queue and none is running. *)
Definition all_terminal (st : State) : bool :=
  (length (PQueue._queue (queue st)) + length (running st) =? 0)%nat.

(** A digit token written with superfluous zeros, such as 007. *)
Definition has_leading_zero (tok : string) : bool :=
  match tok with
  | String c (String _ _) => Ascii.eqb c "0"
  | _ => false
  end.

(** A value between double quotes, as in a content-disposition header. *)
Definition quoted (s : string) : string :=
  String "034" (s +:+ String "034" EmptyString).

(** A 200 response with the given content-disposition header and an empty
    readable body. *)
Definition ok_response (header : option string) : Response :=
  {| status := 200; contentDisposition := header; body := Some (Readable []) |}.

(** ** Invariants of a run *)

(** Indexing touches nothing but the index, its two counters and the
    progress events. *)
Definition same_run_state (st st' : State) : Prop :=
  config st' = config st /\ queue st' = queue st
  /\ downloadedBeatMapSetSize st' = downloadedBeatMapSetSize st
  /\ notDownloadedBeatMapSet st' = notDownloadedBeatMapSet st
  /\ testRequest st' = testRequest st
  /\ processedCount st' = processedCount st /\ totalCount st' = totalCount st
  /\ running st' = running st /\ requested st' = requested st
  /\ created st' = created st /\ timers st' = timers st.

(** The downloaded counter against the events. *)
Definition counter_inv (st : State) : Prop :=
  downloadedBeatMapSetSize st =
  count is_downloaded (emitted st) + count is_skipped (emitted st).

(** While the queue is paused exactly one resume is scheduled, 60 seconds
    after the pause; otherwise none is. *)
Definition throttle_inv (st : State) : Prop :=
  timers st = if PQueue.isPaused (queue st) then [60000%N] else [].

(** The number of [end] events a state without rate limiting must have
    seen. *)
Definition expected_ends (st : State) : nat :=
  if all_terminal st then
    if (count is_skipped (emitted st) =? totalCount st)%nat
    then (if (totalCount st =? 0)%nat then 0 else 1)
    else 2
  else 0.

(** What holds along a run without rate limiting. *)
Definition end_inv (st : State) : Prop :=
  PQueue.isPaused (queue st) = false
  /\ timers st = []
  /\ PQueue._pendingCount (queue st) = length (running st)
  /\ processedCount st + length (PQueue._queue (queue st)) + length (running st)
       = totalCount st
  /\ Forall (fun r => wrapper (job r) = FromBulk) (running st)
  /\ Forall (fun j => wrapper j = FromBulk) (PQueue._queue (queue st))
  /\ count is_downloaded (emitted st) + count is_skipped (emitted st)
       + length (notDownloadedBeatMapSet st) = processedCount st
  /\ count is_end (emitted st) = expected_ends st.

(** The state of [bulkDownload] after [k] of the [T] beatmap sets have been
    visited by the [forEach]. *)
Definition bulk_inv (T k : nat) (st : State) : Prop :=
  totalCount st = T
  /\ PQueue.isPaused (queue st) = false
  /\ timers st = []
  /\ running st = []
  /\ PQueue._pendingCount (queue st) = 0
  /\ processedCount st + length (PQueue._queue (queue st)) = k
  /\ Forall (fun j => wrapper j = FromBulk) (PQueue._queue (queue st))
  /\ count is_downloaded (emitted st) = 0
  /\ count is_skipped (emitted st) = processedCount st
  /\ notDownloadedBeatMapSet st = []
  /\ count is_end (emitted st) =
       if (processedCount st =? T)%nat && negb (T =? 0)%nat then 1 else 0.

(** ** Where the beatmap sets of a collection are *)

(** The beatmap sets named by the events of a kind. *)
Definition downloaded_targets (l : list Event) : list BeatMapSet :=
  omap (fun e => match e with EvDownloaded b => Some b | _ => None end) l.

Definition skipped_targets (l : list Event) : list BeatMapSet :=
  omap (fun e => match e with EvSkipped b => Some b | _ => None end) l.

Definition error_targets (l : list Event) : list BeatMapSet :=
  omap (fun e => match e with EvError b _ => Some b | _ => None end) l.

Definition is_downloading (e : Event) : bool :=
  match e with EvDownloading _ => true | _ => false end.

(** The beatmap sets of the jobs waiting in the queue and of the started
    jobs. *)
Definition waiting_targets (st : State) : list BeatMapSet :=
  map target (PQueue._queue (queue st)).

Definition running_targets (st : State) : list BeatMapSet :=
  map (fun r => target (job r)) (running st).

(** A started job works on the beatmap set it was queued for, with at most
    three retries left, on the alternate mirror exactly when none is left,
    and its fetch is in the log of requests. *)
Definition attempt_ok (st : State) (r : Running) : Prop :=
  beatMapSet (attempt r) = target (job r)
  /\ retries (attempt r) <= 3
  /\ alt (attempt r) = (retries (attempt r) =? 0)%nat
  /\ (id (target (job r)), alt (attempt r)) ∈ requested st.

(** The books of a run over the collection [beatMapSets]. *)
Definition ledger_inv (beatMapSets : list BeatMapSet) (st : State) : Prop :=
  Forall (attempt_ok st) (running st)
  /\ downloaded_targets (emitted st) ++ skipped_targets (emitted st)
       ++ notDownloadedBeatMapSet st ++ waiting_targets st ++ running_targets st
     ≡ₚ beatMapSets
  /\ error_targets (emitted st) = notDownloadedBeatMapSet st
  /\ Forall (fun b => (id b, true) ∈ requested st) (notDownloadedBeatMapSet st)
  /\ length (requested st) = count is_downloading (emitted st).

(** The job [bulkDownload] queues for a beatmap set. *)
Definition bulk_job (b : BeatMapSet) : Job := {| wrapper := FromBulk; target := b |}.

(** Whether [bulkDownload] skips a beatmap set, given the index of [st]. *)
Definition exists_in (st : State) (b : BeatMapSet) : bool :=
  _isBeatmapExisting (id b) st.

(** The fields [bulkDownload] leaves alone. *)
Definition same_outside_queue (st st' : State) : Prop :=
  config st' = config st /\ existingBeatmaps st' = existingBeatmaps st
  /\ running st' = running st /\ requested st' = requested st
  /\ created st' = created st /\ timers st' = timers st
  /\ notDownloadedBeatMapSet st' = notDownloadedBeatMapSet st
  /\ testRequest st' = testRequest st
  /\ totalCount st' = totalCount st
  /\ PQueue.concurrency (queue st') = PQueue.concurrency (queue st)
  /\ PQueue.isPaused (queue st') = PQueue.isPaused (queue st)
  /\ PQueue._pendingCount (queue st') = PQueue._pendingCount (queue st)
  /\ downloaded_targets (emitted st') = downloaded_targets (emitted st)
  /\ error_targets (emitted st') = error_targets (emitted st)
  /\ count is_downloading (emitted st') = count is_downloading (emitted st).

(** Every beatmap set the run still works on, and every id it has asked a
    mirror for, satisfies [P]. *)
Definition fetch_inv (P : BeatMapSet -> Prop) (st : State) : Prop :=
  Forall (fun j => P (target j)) (PQueue._queue (queue st))
  /\ Forall (fun r => P (target (job r))) (running st)
  /\ Forall (fun p => exists b, P b /\ id b = p.1) (requested st).

(** The live concurrency of the queue against the probing flag. *)
Definition probe_inv (st : State) : Prop :=
  PQueue.concurrency (queue st) =
  if testRequest st then 1 else configured_concurrency (config st).

(** The pending count is the number of started jobs, and it stays within
    the configured concurrency (within 1 when that is 0). *)
Definition pending_inv (st : State) : Prop :=
  PQueue._pendingCount (queue st) = length (running st)
  /\ length (running st) <= max 1 (configured_concurrency (config st)).

(** A paused queue has a job waiting. *)
Definition paused_inv (st : State) : Prop :=
  PQueue.isPaused (queue st) = true -> PQueue._queue (queue st) <> [].

(** The index after the entries [files] have been added to [m]. *)
Definition add_entries (files : list string) (m : gmap string bool) : gmap string bool :=
  foldl (fun m file =>
           match JS.match_leading_digits file with
           | Some tok => <[tok := true]> m
           | None => m
           end) m files.

(** No character of [s] is [c]. *)
Definition lacks (c : ascii) (s : string) : Prop :=
  ~ In c (list_ascii_of_string s).

(** Every character of [s] is an ASCII character. *)
Definition is_ascii (s : string) : Prop :=
  Forall (fun c => (N_of_ascii c < 128)%N) (list_ascii_of_string s).

Definition hex_digit (n : N) : ascii :=
  nth (N.to_nat n) (list_ascii_of_string "0123456789ABCDEF") "0"%char.

(** [s] with every character written as a percent escape. *)
Fixpoint pct_encode (s : string) : string :=
  match s with
  | String c rest =>
      let n := N_of_ascii c in
      String "%" (String (hex_digit (n / 16)) (String (hex_digit (n mod 16)) (pct_encode rest)))
  | EmptyString => EmptyString
  end.

(** The fetches a run has made or may still make without a rate limit: four
    for a waiting job, one per retry left for a started one. *)
Definition fetch_budget (st : State) : nat :=
  length (requested st) + 4 * length (PQueue._queue (queue st))
  + sum_list_with (fun r => retries (attempt r)) (running st).

(** What a run leaves alone when the queue only starts waiting jobs. *)
Definition same_but_started (st st' : State) : Prop :=
  config st' = config st /\ existingBeatmaps st' = existingBeatmaps st
  /\ PQueue.isPaused (queue st') = PQueue.isPaused (queue st)
  /\ PQueue.concurrency (queue st') = PQueue.concurrency (queue st)
  /\ timers st' = timers st /\ testRequest st' = testRequest st
  /\ processedCount st' = processedCount st /\ totalCount st' = totalCount st
  /\ downloadedBeatMapSetSize st' = downloadedBeatMapSetSize st
  /\ notDownloadedBeatMapSet st' = notDownloadedBeatMapSet st.

(** ** Attempts and retries per beatmap set *)

(** Events about the beatmap set with the id of [b]. *)
Definition is_downloading_of (b : BeatMapSet) (e : Event) : bool :=
  match e with EvDownloading b' => (id b' =? id b)%N | _ => false end.

Definition is_retrying_of (b : BeatMapSet) (e : Event) : bool :=
  match e with EvRetrying b' => (id b' =? id b)%N | _ => false end.

Definition is_error_of (b : BeatMapSet) (e : Event) : bool :=
  match e with EvError b' _ => (id b' =? id b)%N | _ => false end.

(** What the started downloads of [b] have used of a budget of [budget]
    per call chain, a chain starting with three retries left. *)
Definition used_by (budget : nat) (b : BeatMapSet) (r : Running) : nat :=
  if (id (target (job r)) =? id b)%N then budget - retries (attempt r) else 0.

Definition used (budget : nat) (b : BeatMapSet) (st : State) : nat :=
  sum_list_with (used_by budget b) (running st).

(** Every [error] event for [b] and every started download of [b] is
    covered by [downloading] and [retrying] events for [b]. *)
Definition attempts_inv (b : BeatMapSet) (st : State) : Prop :=
  4 * count (is_error_of b) (emitted st) + used 4 b st
    <= count (is_downloading_of b) (emitted st)
  /\ 3 * count (is_error_of b) (emitted st) + used 3 b st
       <= count (is_retrying_of b) (emitted st).

(** ** The earlier download manager

    The class [DownloadManager] of the second source file: its file name
    resolver and its batched download. A url is any value; whether [_dl]
    rejects for a url is left to the environment. *)

Module Legacy.

(** The characters of the pattern of forbidden directory names: space,
    slash, angle brackets, colon, double quote, backslash, bar, question
    mark and star. *)
Definition is_forbidden (c : ascii) : bool :=
  existsb (Ascii.eqb c) [" "; "/"; "<"; ">"; ":"; "034"; "\"; "|"; "?"; "*"]%char.

(** [str.replace(regex, empty)]: every run of forbidden characters is
    removed. *)
Fixpoint strip_forbidden (str : string) : string :=
  match str with
  | String c rest =>
      if is_forbidden c then strip_forbidden rest else String c (strip_forbidden rest)
  | EmptyString => EmptyString
  end.

(** The characters [.] does not match. *)
Definition is_line_terminator (c : ascii) : bool :=
  Ascii.eqb c "010" || Ascii.eqb c "013".

Fixpoint line_of (s : string) : string :=
  match s with
  | String c rest => if is_line_terminator c then EmptyString else String c (line_of rest)
  | EmptyString => EmptyString
  end.

(** The group [(.+)] and the double quote after it, read at the head of
    [line]: the longest prefix of at least one character that is followed by
    a double quote. *)
Fixpoint capture (line : string) : option string :=
  match line with
  | EmptyString => None
  | String c rest =>
      match capture rest with
      | Some u => Some (String c u)
      | None =>
          match rest with
          | String q _ => if Ascii.eqb q "034" then Some (String c EmptyString) else None
          | EmptyString => None
          end
      end
  end.

(** [regexFilename.exec(s)] on a fresh pattern (filename=, a double quote,
    the group, a double quote): the group of the leftmost match. *)
Fixpoint exec_filename (s : string) : option string :=
  let later :=
    match s with
    | String _ rest => exec_filename rest
    | EmptyString => None
    end in
  match JS.strip_prefix ("filename=" +:+ String "034" EmptyString) s with
  | Some rest =>
      match capture (line_of rest) with
      | Some u => Some u
      | None => later
      end
  | None => later
  end.

(** [h.toLowerCase()] on the letters A to Z; it is only compared with
    an ASCII name. *)
Definition to_lower (c : ascii) : ascii :=
  let n := nat_of_ascii c in
  if (65 <=? n)%nat && (n <=? 90)%nat then ascii_of_nat (n + 32) else c.

Fixpoint toLowerCase (s : string) : string :=
  match s with
  | String c rest => String (to_lower c) (toLowerCase rest)
  | EmptyString => EmptyString
  end.

(** [response.headers[headerNames[headerIndex]]] as the string handed to
    [exec]: the value of the first header whose lowered name is
    content-disposition; without one the index is -1, the key is
    [undefined], and the value is that of a header named undefined, or
    the text of [undefined] itself. *)
Definition contentDispositionHeader (headers : list (string * string)) : string :=
  match List.find (fun kv => String.eqb (toLowerCase kv.1) "content-disposition") headers with
  | Some kv => kv.2
  | None =>
      match List.find (fun kv => String.eqb kv.1 "undefined") headers with
      | Some kv => kv.2
      | None => "undefined"
      end
  end.

(** [getFilename(response)]; [None] is the URIError of
    [decodeURIComponent]. *)
Definition getFilename (headers : list (string * string)) : option string :=
  match exec_filename (contentDispositionHeader headers) with
  | Some u => JS.decodeURIComponent (strip_forbidden u)
  | None => Some "Untitled.osz"
  end.

(** [ids.slice(start, end)] for [start <= end]. *)
Definition slice {A} (ids : list A) (start end_ : nat) : list A :=
  take (end_ - start) (drop start ids).

(** [impulse(ids, rate)] from the iteration [i] on, for a rate that is a
    natural number: the batches handed to [_dl], and whether the call
    returned ([true]) or a batch rejected ([false]). [None] when [fuel]
    iterations do not end the loop. The loop test [i < ids.length / rate] is
    [i * rate < ids.length], also for rate 0 (the quotient is Infinity, or
    NaN for an empty list). *)
Fixpoint impulse_from {A} (rejects : A -> bool) (fuel : nat) (ids : list A)
    (rate i : nat) : option (list (list A) * bool) :=
  if (i * rate <? length ids)%nat then
    match fuel with
    | O => None
    | S fuel' =>
        let inRange := slice ids (i * rate) ((i + 1) * rate) in
        if existsb rejects inRange then Some ([inRange], false)
        else
          match impulse_from rejects fuel' ids rate (S i) with
          | Some (batches, ok) => Some (inRange :: batches, ok)
          | None => None
          end
    end
  else Some ([], true).

Definition impulse {A} (rejects : A -> bool) (fuel : nat) (ids : list A) (rate : nat)
    : option (list (list A) * bool) :=
  impulse_from rejects fuel ids rate 0.

End Legacy.

(** * Properties *)

(** ** Events and counters *)

Lemma count_app p l1 l2 : count p (l1 ++ l2) = count p l1 + count p l2.
Proof. unfold count. by rewrite List.filter_app, length_app. Qed.

Lemma count_snoc p l e : count p (l ++ [e]) = count p l + (if p e then 1 else 0).
Proof. rewrite count_app. unfold count. simpl. by destruct (p e). Qed.

(** ** Decimal rendering *)

Lemma string_of_uint_D0 d c r :
  NilEmpty.string_of_uint d = String "0" (String c r) ->
  exists d', d = Decimal.D0 d' /\ d' <> Decimal.Nil.
Proof.
  destruct d as [|d'|d'|d'|d'|d'|d'|d'|d'|d'|d']; simpl; try discriminate.
  intros H. exists d'. split; [done|]. intros ->. discriminate.
Qed.

(** The decimal rendering of a number never starts with a superfluous zero. *)
Lemma Number_toString_no_leading_zero n c r :
  JS.Number_toString n <> String "0" (String c r).
Proof.
  unfold JS.Number_toString. intros H.
  apply string_of_uint_D0 in H as (d' & Hd & Hnil).
  pose proof (DecimalN.Unsigned.to_of (N.to_uint n)) as Hn.
  rewrite DecimalN.Unsigned.of_to, Hd, DecimalFacts.unorm_D0 in Hn.
  pose proof (DecimalFacts.nb_digits_unorm d' Hnil) as Hle.
  rewrite <- Hn in Hle. simpl in Hle. lia.
Qed.

(** ** The songs-folder index *)

Lemma index_entry_fields st file :
  let st' := index_entry st file in
  totalSongs st' = totalSongs st
  /\ indexedSongs st' = S (indexedSongs st)
  /\ emitted st' = emitted st ++ [EvIndexing (S (indexedSongs st)) (totalSongs st)]
  /\ existingBeatmaps st' =
       match JS.match_leading_digits file with
       | Some tok => <[tok := true]> (existingBeatmaps st)
       | None => existingBeatmaps st
       end.
Proof. unfold index_entry. by destruct (JS.match_leading_digits file). Qed.

Lemma foldl_index_entry files : forall st,
  let st' := foldl index_entry st files in
  totalSongs st' = totalSongs st
  /\ indexedSongs st' = indexedSongs st + length files
  /\ emitted st' =
       emitted st ++
       map (fun k => EvIndexing (indexedSongs st + k) (totalSongs st)) (seq 1 (length files))
  /\ dom (existingBeatmaps st') =
       dom (existingBeatmaps st) ∪ list_to_set (omap JS.match_leading_digits files).
Proof.
  induction files as [|file files IH]; intros st; simpl.
  - rewrite app_nil_r. repeat split; [lia | set_solver].
  - destruct (index_entry_fields st file) as (Ht & Hi & He & Hm).
    destruct (IH (index_entry st file)) as (Ht' & Hi' & He' & Hm').
    rewrite Ht', Hi', He', Hm', Ht, Hi, He, Hm. repeat split; [lia | |].
    + rewrite <- app_assoc. f_equal. simpl. f_equal; [f_equal; lia|].
      rewrite <- (seq_shift (length files) 1), map_map.
      apply map_ext. intros k. f_equal. lia.
    + destruct (JS.match_leading_digits file); simpl;
        [rewrite dom_insert_L|]; set_solver.
Qed.

Lemma same_run_state_refl st : same_run_state st st.
Proof. by repeat split. Qed.

Lemma same_run_state_trans st1 st2 st3 :
  same_run_state st1 st2 -> same_run_state st2 st3 -> same_run_state st1 st3.
Proof. unfold same_run_state. intros H1 H2. intuition congruence. Qed.

Lemma index_entry_frame st file : same_run_state st (index_entry st file).
Proof. unfold index_entry. by destruct (JS.match_leading_digits file). Qed.

Lemma indexSongsFolder_frame listing st :
  same_run_state st (_indexSongsFolder listing st).
Proof.
  destruct listing as [files|]; simpl; [|apply same_run_state_refl].
  apply same_run_state_trans with (upd_totalSongs (fun _ => length files) st); [done|].
  generalize (upd_totalSongs (fun _ => length files) st).
  induction files as [|file files IH]; intros s; simpl; [apply same_run_state_refl|].
  eapply same_run_state_trans; [apply index_entry_frame | apply IH].
Qed.

(** C6. For every directory listing, the indexer sets [totalSongs] to the
    number of entries, adds to the index exactly the leading digit tokens of
    the entries that have one (the other entries only count), and emits one
    [indexing] event per entry, carrying the running count and the total.
    The entries "123 Foo - Bar", "456 Baz", "NoIdHere" give the index
    {123, 456} and the total 3. *)
Theorem indexSongsFolder_spec (st : State) (files : list string) :
  let st' := _indexSongsFolder (Some files) st in
  totalSongs st' = length files
  /\ dom (existingBeatmaps st') =
       dom (existingBeatmaps st) ∪ list_to_set (omap JS.match_leading_digits files)
  /\ indexedSongs st' = indexedSongs st + length files
  /\ emitted st' =
       emitted st ++
       map (fun k => EvIndexing (indexedSongs st + k) (length files)) (seq 1 (length files))
  /\ (forall cfg,
        let ex := _indexSongsFolder (Some ["123 Foo - Bar"; "456 Baz"; "NoIdHere"])
                    (new_DownloadManager cfg) in
        dom (existingBeatmaps ex) = {["123"; "456"]}
        /\ totalSongs ex = 3
        /\ emitted ex = [EvIndexing 1 3; EvIndexing 2 3; EvIndexing 3 3]).
Proof.
  simpl.
  destruct (foldl_index_entry files (upd_totalSongs (fun _ => length files) st))
    as (Ht & Hi & He & Hm).
  repeat split; done.
Qed.

Lemma isBeatmapExisting_true n st :
  _isBeatmapExisting n st = true <-> JS.Number_toString n ∈ dom (existingBeatmaps st).
Proof. unfold _isBeatmapExisting. by rewrite bool_decide_eq_true, elem_of_dom. Qed.

(** The check is a verbatim comparison of strings: after indexing, an id
    exists exactly when it did before or some entry starts with precisely
    its decimal rendering. *)
Lemma isBeatmapExisting_indexed st files n :
  _isBeatmapExisting n (_indexSongsFolder (Some files) st) = true <->
  _isBeatmapExisting n st = true
  \/ exists file, file ∈ files /\ JS.match_leading_digits file = Some (JS.Number_toString n).
Proof.
  rewrite !isBeatmapExisting_true. simpl.
  destruct (foldl_index_entry files (upd_totalSongs (fun _ => length files) st))
    as (_ & _ & _ & ->).
  rewrite elem_of_union, elem_of_list_to_set, list_elem_of_omap. done.
Qed.

Lemma has_leading_zero_not_rendering tok n :
  has_leading_zero tok = true -> tok <> JS.Number_toString n.
Proof.
  destruct tok as [|c [|c' r]]; simpl; try discriminate.
  intros Hc%Ascii.eqb_eq Heq. subst c.
  by apply (Number_toString_no_leading_zero n c' r).
Qed.

(** C10. The existence check compares the leading digit string of an entry
    verbatim with the decimal rendering of the id: indexing an entry whose
    token carries leading zeros (007 Song) changes the answer for no id, so
    a beatmap set that was not known before is still not existing and
    [bulkDownload] queues its download instead of skipping it. *)
Theorem zero_padded_entry_is_not_existing
    (st : State) (file tok : string) (b : BeatMapSet) :
  JS.match_leading_digits file = Some tok ->
  has_leading_zero tok = true ->
  _isBeatmapExisting (id b) st = false ->
  let st' := index_entry st file in
  (forall n, _isBeatmapExisting n st' = _isBeatmapExisting n st)
  /\ _isBeatmapExisting (id b) st' = false
  /\ bulkDownload_each st' b =
       upd_queue (PQueue.add {| wrapper := FromBulk; target := b |}) st'.
Proof.
  intros Hm Hz Hb st'. subst st'.
  assert (Hsame : forall n, _isBeatmapExisting n (index_entry st file) = _isBeatmapExisting n st).
  { intros n. apply eq_true_iff_eq. rewrite !isBeatmapExisting_true.
    destruct (index_entry_fields st file) as (_ & _ & _ & ->).
    rewrite Hm, dom_insert_L.
    pose proof (has_leading_zero_not_rendering tok n Hz). set_solver. }
  split; [done|]. split; [by rewrite Hsame|].
  unfold bulkDownload_each. by rewrite Hsame, Hb.
Qed.

Lemma zero_padded_entry_is_not_existing_witness :
  let st := new_DownloadManager
              Config.defaults in
  let st' := index_entry st "007 Song" in
  (forall n, _isBeatmapExisting n st' = _isBeatmapExisting n st)
  /\ _isBeatmapExisting 7 st' = false
  /\ bulkDownload_each st' {| id := 7 |} =
       upd_queue (PQueue.add {| wrapper := FromBulk; target := {| id := 7 |} |}) st'.
Proof.
  exact (zero_padded_entry_is_not_existing
           (new_DownloadManager
              Config.defaults)
           "007 Song" "007" {| id := 7 |} eq_refl eq_refl eq_refl).
Defined.

(** ** The file name resolver *)

Lemma replaceForbiddenChars_clean str c :
  In c (list_ascii_of_string (Util.replaceForbiddenChars str)) ->
  Util.is_forbidden c = false.
Proof.
  induction str as [|a str IH]; simpl; [done|].
  destruct (Util.is_forbidden a) eqn:Ha; simpl; [done|].
  intros [<-|Hin]; [done | by apply IH].
Qed.

(** Whatever [Util.replaceForbiddenChars] does, the resolver cannot both
    return the name with its space for the first example and never return a
    space. *)
Remark resolver_example_against_guarantee (sanitize : string -> string) :
  _getFilename sanitize (ok_response (Some ("attachment; filename=" +:+ quoted "My Song.osz")))
    = inr "My Song.osz" ->
  ~ (forall response name,
       _getFilename sanitize response = inr name ->
       forall c, In c (list_ascii_of_string name) -> Util.is_forbidden c = false).
Proof.
  intros Hex Hclean.
  specialize (Hclean _ _ Hex " "%char). simpl in Hclean.
  assert (Util.is_forbidden " " = false) by (apply Hclean; tauto).
  discriminate.
Qed.

Lemma replaceReservedChars_clean str c :
  In c (list_ascii_of_string (Util.replaceReservedChars str)) ->
  Util.is_reserved c = false.
Proof.
  induction str as [|a str IH]; simpl; [done|].
  destruct (Util.is_reserved a) eqn:Ha; simpl; [done|].
  intros [<-|Hin]; [done | by apply IH].
Qed.

Lemma is_forbidden_reserved c : Util.is_forbidden c = false -> Util.is_reserved c = false.
Proof. unfold Util.is_reserved. by intros ->. Qed.

(** The stripping that the earlier manager does inline, with the pattern of
    its [getFilename], is the helper of section 4.2. *)
Lemma replaceForbiddenChars_legacy str :
  Util.replaceForbiddenChars str = Legacy.strip_forbidden str.
Proof. induction str as [|c str IH]; simpl; [done|]. rewrite IH. done. Qed.

(** A name the resolver returns is the default or a value of the helper. *)
Lemma getFilename_result sanitize response name :
  _getFilename sanitize response = inr name ->
  name = "Untitled.osz" \/ exists decoded, name = sanitize decoded.
Proof.
  unfold _getFilename.
  destruct (contentDisposition response) as [[|c0 cd]|]; try (intros [= <-]; by left).
  destruct (JS.exec_filename (String c0 cd)); [|intros [= <-]; by left].
  destruct (JS.decodeURIComponent s); [|discriminate].
  intros [= <-]. right. eauto.
Qed.

(** C7, as far as the specification fixes the missing helper. A header
    with filename="A/B<C" resolves to ABC; without the header the name is
    Untitled.osz; no returned name contains one of / < > : double quote,
    backslash, bar, question mark, star. The first example and the
    exclusion of the space hold in turn: where the helper strips spaces
    (section 4.2) no returned name contains a space and the header
    content-disposition: attachment; filename="My Song.osz" resolves to
    MySong.osz; where it keeps them (section 8) that header resolves to
    My Song.osz. *)
Theorem getFilename_examples_and_sanitization (reading : Util.Reading) :
  let sanitize := Util.replaceForbiddenChars_as reading in
  let my_song := ok_response (Some ("attachment; filename=" +:+ quoted "My Song.osz")) in
  _getFilename sanitize (ok_response (Some ("filename=" +:+ quoted "A/B<C"))) = inr "ABC"
  /\ (forall response,
        contentDisposition response = None ->
        _getFilename sanitize response = inr "Untitled.osz")
  /\ (forall response name,
        _getFilename sanitize response = inr name ->
        forall c, In c (list_ascii_of_string name) -> Util.is_reserved c = false)
  /\ match reading with
     | Util.StripsSpace =>
         _getFilename sanitize my_song = inr "MySong.osz"
         /\ (forall response name,
               _getFilename sanitize response = inr name ->
               forall c, In c (list_ascii_of_string name) -> Util.is_forbidden c = false)
     | Util.KeepsSpace =>
         _getFilename sanitize my_song = inr "My Song.osz"
     end.
Proof.
  intros sanitize my_song.
  assert (Hdef : forall c, In c (list_ascii_of_string "Untitled.osz") ->
                           Util.is_forbidden c = false).
  { intros c Hin. simpl in Hin.
    repeat (destruct Hin as [<-|Hin]; [reflexivity|]). done. }
  split; [by destruct reading|]. split.
  { intros response H. unfold _getFilename. by rewrite H. }
  split.
  - intros response name Hname c Hin.
    apply getFilename_result in Hname as [->|(decoded & ->)].
    + apply is_forbidden_reserved. by apply Hdef.
    + destruct reading; simpl in Hin.
      * apply is_forbidden_reserved. by eapply replaceForbiddenChars_clean.
      * by eapply replaceReservedChars_clean.
  - destruct reading; [split; [reflexivity|] | reflexivity].
    intros response name Hname c Hin.
    apply getFilename_result in Hname as [->|(decoded & ->)].
    + by apply Hdef.
    + by eapply replaceForbiddenChars_clean.
Qed.

Lemma getFilename_examples_and_sanitization_witness :
  _getFilename (Util.replaceForbiddenChars_as Util.KeepsSpace)
    (ok_response (Some ("filename=" +:+ quoted "A/B<C"))) = inr "ABC"
  /\ Util.is_reserved "B" = false.
Proof.
  split; [exact (proj1 (getFilename_examples_and_sanitization Util.KeepsSpace))|].
  exact (proj1 (proj2 (proj2 (getFilename_examples_and_sanitization Util.KeepsSpace)))
           (ok_response (Some ("filename=" +:+ quoted "A/B<C"))) "ABC" eq_refl
           "B"%char (or_intror (or_introl eq_refl))).
Defined.

(** C7 as stated fails, whatever [Util.replaceForbiddenChars] does: no
    helper makes the resolver return the first example with its space and
    never return a name with a space. *)
Lemma getFilename_my_song_counterexample :
  ~ exists sanitize : string -> string,
      _getFilename sanitize
        (ok_response (Some ("attachment; filename=" +:+ quoted "My Song.osz")))
        = inr "My Song.osz"
      /\ _getFilename sanitize (ok_response (Some ("filename=" +:+ quoted "A/B<C")))
           = inr "ABC"
      /\ (forall response,
            contentDisposition response = None ->
            _getFilename sanitize response = inr "Untitled.osz")
      /\ (forall response name,
            _getFilename sanitize response = inr name ->
            forall c, In c (list_ascii_of_string name) -> Util.is_forbidden c = false).
Proof.
  intros (sanitize & Hex & _ & _ & Hclean).
  by apply (resolver_example_against_guarantee sanitize).
Qed.

Lemma getFilename_decode_failure sanitize response cd tok :
  contentDisposition response = Some cd ->
  JS.exec_filename cd = Some tok ->
  JS.decodeURIComponent tok = None ->
  _getFilename sanitize response = inl (OcdlError "FILE_NAME_EXTRACTION_FAILED").
Proof.
  intros Hcd Hex Hdec. unfold _getFilename. rewrite Hcd.
  destruct cd as [|c cd]; [discriminate|]. by rewrite Hex, Hdec.
Qed.

(** ** One download *)

Lemma downloadFile_try_threw a o st st' e :
  _downloadFile_try a o st = (st', Threw e) ->
  emitted st' = emitted st
  /\ notDownloadedBeatMapSet st' = notDownloadedBeatMapSet st
  /\ requested st' = requested st.
Proof.
  unfold _downloadFile_try.
  destruct o as [|response]; [by intros [= <- _]|].
  destruct (status response =? 429)%N; [discriminate|].
  destruct (negb (status response =? 200)%N); [by intros [= <- _]|].
  destruct (_getFilename Util.replaceForbiddenChars response) as [e'|fileName];
    [destruct (testRequest st); by intros [= <- _]|].
  destruct (body response) as [[chunks|chunks]|]; [discriminate| |];
    destruct (testRequest st); by intros [= <- _].
Qed.

(** C8. When the [filename=] token of a 200 response does not
    percent-decode, [_getFilename] throws the OcdlError
    FILE_NAME_EXTRACTION_FAILED instead of returning the default name; the
    throw happens inside the [try] of [_downloadFile], so it is handled like
    any failed attempt: with retries left a [retrying] event and a new
    attempt with one retry fewer, otherwise an [error] event and an entry in
    the not-downloaded list. The step of the run is defined in both cases:
    nothing escapes to the caller. *)
Theorem filename_decode_failure_is_attempt_failure
    (sanitize : string -> string) (response : Response) (cd tok : string)
    (a : Attempt) (st : State) :
  status response = 200%N ->
  contentDisposition response = Some cd ->
  JS.exec_filename cd = Some tok ->
  JS.decodeURIComponent tok = None ->
  let e := OcdlError "FILE_NAME_EXTRACTION_FAILED" in
  _getFilename sanitize response = inl e
  /\ _getFilename sanitize response <> inr "Untitled.osz"
  /\ snd (_downloadFile_try a (Resolved response) st) = Threw e
  /\ (let (st', next) := _downloadFile_settle a (Resolved response) st in
      match retries a with
      | S r =>
          next = Some {| beatMapSet := beatMapSet a; retries := r; alt := (r =? 0)%nat |}
          /\ emitted st' =
               emitted st ++ [EvRetrying (beatMapSet a); EvDownloading (beatMapSet a)]
          /\ notDownloadedBeatMapSet st' = notDownloadedBeatMapSet st
      | O =>
          next = None
          /\ emitted st' = emitted st ++ [EvError (beatMapSet a) e]
          /\ notDownloadedBeatMapSet st' = notDownloadedBeatMapSet st ++ [beatMapSet a]
      end)
  /\ (forall i r, running st !! i = Some r ->
        is_Some (step (Settle i (Resolved response)) st)).
Proof.
  intros Hst Hcd Hex Hdec e.
  pose proof (getFilename_decode_failure sanitize _ _ _ Hcd Hex Hdec) as Hname.
  pose proof (getFilename_decode_failure Util.replaceForbiddenChars _ _ _ Hcd Hex Hdec)
    as Hname'.
  assert (Htry : exists st1, _downloadFile_try a (Resolved response) st = (st1, Threw e)).
  { unfold _downloadFile_try. rewrite Hst, Hname'. simpl. eauto. }
  destruct Htry as (st1 & Htry).
  split; [done|]. split; [by rewrite Hname|]. split; [by rewrite Htry|]. split.
  - unfold _downloadFile_settle. rewrite Htry.
    apply downloadFile_try_threw in Htry as (He & Hn & _).
    unfold _downloadFile_catch. destruct (retries a) as [|r] eqn:Hr; simpl.
    + by rewrite He, Hn.
    + rewrite He, Hn, <- app_assoc. by destruct r.
  - intros i r Hi. simpl. rewrite Hi.
    destruct (_downloadFile_settle (attempt r) (Resolved response) st) as [st2 [a'|]]; eauto.
Qed.

Lemma filename_decode_failure_is_attempt_failure_witness :
  let response := ok_response (Some "attachment; filename=%E0%A4%A") in
  let a := default_options {| id := 7 |} in
  let st := new_DownloadManager
              Config.defaults in
  let e := OcdlError "FILE_NAME_EXTRACTION_FAILED" in
  _getFilename Util.replaceForbiddenChars response = inl e
  /\ _getFilename Util.replaceForbiddenChars response <> inr "Untitled.osz"
  /\ snd (_downloadFile_try a (Resolved response) st) = Threw e
  /\ (let (st', next) := _downloadFile_settle a (Resolved response) st in
      next = Some {| beatMapSet := {| id := 7 |}; retries := 2; alt := false |}
      /\ emitted st' = emitted st ++ [EvRetrying {| id := 7 |}; EvDownloading {| id := 7 |}]
      /\ notDownloadedBeatMapSet st' = notDownloadedBeatMapSet st)
  /\ (forall i r, running st !! i = Some r ->
        is_Some (step (Settle i (Resolved response)) st)).
Proof.
  exact (filename_decode_failure_is_attempt_failure Util.replaceForbiddenChars
           (ok_response (Some "attachment; filename=%E0%A4%A"))
           "attachment; filename=%E0%A4%A" "%E0%A4%A"
           (default_options {| id := 7 |})
           (new_DownloadManager
              Config.defaults)
           eq_refl eq_refl eq_refl eq_refl).
Defined.

(** ** Runs *)

Ltac unfold_ops_once :=
  unfold step, job_done, idle_check, on_idle, queue_start,
    _downloadFile_settle, _downloadFile_catch, _downloadFile_try,
    _downloadFile_begin, on_rateLimited, bulkDownload_each, default_options,
    emit in *.

Ltac unfold_ops := repeat (progress unfold_ops_once).

Ltac split_cases := repeat (case_match; simplify_eq/=).

Ltac count_events := rewrite ?count_snoc; simpl; try lia.

(** A property kept by every enabled step of a class of actions holds along
    every schedule made of such actions. *)
Lemma run_invariant (ok : Action -> bool) (P : State -> Prop) :
  (forall act st st', ok act = true -> P st -> step act st = Some st' -> P st') ->
  forall acts st, forallb ok acts = true -> P st -> P (run acts st).
Proof.
  intros Hstep acts. induction acts as [|act acts IH]; intros st Hok HP; simpl; [done|].
  simpl in Hok. apply andb_prop in Hok as [Hact Hacts].
  destruct (step act st) as [st'|] eqn:Hs; apply IH; eauto.
Qed.

Lemma run_invariant_all (P : State -> Prop) :
  (forall act st st', P st -> step act st = Some st' -> P st') ->
  forall acts st, P st -> P (run acts st).
Proof.
  intros Hstep acts st. apply (run_invariant (fun _ => true)); [eauto|].
  by induction acts.
Qed.

Lemma foldl_invariant {A} (f : State -> A -> State) (P : State -> Prop) :
  (forall st x, P st -> P (f st x)) ->
  forall l st, P st -> P (foldl f st l).
Proof. intros Hf l. induction l as [|x l IH]; intros st HP; simpl; eauto. Qed.

(** The events emitted by the indexer are [indexing] events. *)
Lemma setSongsDirectory_emitted dir listing st :
  exists l, emitted (setSongsDirectory dir listing st) = emitted st ++ l
            /\ Forall (fun e => exists i t, e = EvIndexing i t) l.
Proof.
  unfold setSongsDirectory. destruct listing as [files|]; simpl.
  - destruct (foldl_index_entry files
                (upd_totalSongs (fun _ => length files)
                   (upd_songsDirectory (fun _ => dir) st))) as (_ & _ & -> & _).
    eexists. split; [reflexivity|]. apply Forall_forall. intros e Hin.
    apply list_elem_of_In, in_map_iff in Hin as (k & <- & _). eauto.
  - exists []. by rewrite app_nil_r.
Qed.

Lemma count_indexing p l :
  (forall i t, p (EvIndexing i t) = false) ->
  Forall (fun e => exists i t, e = EvIndexing i t) l -> count p l = 0.
Proof.
  intros Hp. induction 1 as [|e l (i & t & ->) _ IH]; [done|].
  unfold count in *. simpl. by rewrite Hp.
Qed.

Lemma setSongsDirectory_frame dir listing st :
  same_run_state st (setSongsDirectory dir listing st).
Proof.
  unfold setSongsDirectory.
  eapply same_run_state_trans; [|apply indexSongsFolder_frame]. done.
Qed.

(** *** The downloaded counter *)

Lemma counter_inv_step act st st' :
  counter_inv st -> step act st = Some st' -> counter_inv st'.
Proof.
  unfold counter_inv. intros H Hs. destruct act as [|i o|]; unfold_ops;
    split_cases; count_events.
Qed.

Lemma counter_inv_session cfg listing beatMapSets :
  counter_inv (session cfg listing beatMapSets).
Proof.
  unfold session, bulkDownload. apply foldl_invariant.
  - intros st b H. unfold counter_inv in *. unfold_ops. split_cases; count_events.
  - unfold counter_inv. simpl.
    destruct (setSongsDirectory_frame "Songs" listing (new_DownloadManager cfg))
      as (_ & _ & -> & _).
    destruct (setSongsDirectory_emitted "Songs" listing (new_DownloadManager cfg))
      as (l & -> & Hl).
    rewrite !count_app, !(count_indexing _ l) by done. done.
Qed.

(** *** The rate-limit throttle *)

Lemma throttle_inv_step act st st' :
  throttle_inv st -> step act st = Some st' -> throttle_inv st'.
Proof.
  unfold throttle_inv. intros H Hs. destruct act as [|i o|]; unfold_ops;
    unfold PQueue.dequeue, PQueue.can_start in *; split_cases; try done;
    try (rewrite H; done); try congruence.
Qed.

Lemma throttle_inv_session cfg listing beatMapSets :
  throttle_inv (session cfg listing beatMapSets).
Proof.
  unfold session, bulkDownload. apply foldl_invariant.
  - intros st b H. unfold throttle_inv in *. unfold_ops. split_cases; done.
  - unfold throttle_inv. simpl.
    destruct (setSongsDirectory_frame "Songs" listing (new_DownloadManager cfg))
      as (_ & -> & _ & _ & _ & _ & _ & _ & _ & _ & ->).
    done.
Qed.

Lemma downloadFile_settle_429 a response st :
  status response = 429%N ->
  _downloadFile_settle a (Resolved response) st =
  (upd_queue (PQueue.add {| wrapper := FromRateLimit; target := beatMapSet a |})
     (on_rateLimited (emit EvRateLimited st)), None).
Proof. intros H. unfold _downloadFile_settle, _downloadFile_try. by rewrite H. Qed.

(** C5. A 429 raises [rateLimited], whose listener, when the queue is not
    paused, pauses it, sets the live concurrency to 1, sets [testRequest]
    and schedules one [queue.start()] 60000 ms later; when the queue is
    already paused the listener changes nothing, so no further resume is
    scheduled and the pending one is neither moved nor replaced. The timer
    resumes the queue whatever happened in between. Along every run at most
    one resume is pending, and only while the queue is paused. *)
Theorem rate_limit_throttle (st : State) :
  (forall a response, status response = 429%N ->
     fst (_downloadFile_settle a (Resolved response) st) =
     upd_queue (PQueue.add {| wrapper := FromRateLimit; target := beatMapSet a |})
       (on_rateLimited (emit EvRateLimited st)))
  /\ (PQueue.isPaused (queue st) = false ->
      let st' := on_rateLimited st in
      PQueue.isPaused (queue st') = true
      /\ PQueue.concurrency (queue st') = 1
      /\ testRequest st' = true
      /\ timers st' = timers st ++ [60000%N])
  /\ (PQueue.isPaused (queue st) = true -> on_rateLimited st = st)
  /\ (forall t rest, timers st = t :: rest ->
        exists st', step Timeout st = Some st'
                    /\ PQueue.isPaused (queue st') = false
                    /\ timers st' = rest)
  /\ (forall cfg listing beatMapSets acts,
        let s := run acts (session cfg listing beatMapSets) in
        timers s = if PQueue.isPaused (queue s) then [60000%N] else []).
Proof.
  split; [|split; [|split; [|split]]].
  - intros a response H. by rewrite downloadFile_settle_429.
  - intros H. unfold on_rateLimited. by rewrite H.
  - intros H. unfold on_rateLimited. by rewrite H.
  - intros t rest H. simpl. rewrite H. eexists. split; [reflexivity|].
    unfold queue_start, idle_check, on_idle, emit. simpl.
    destruct (PQueue.isPaused (queue st)) eqn:Hp; simpl; [|done].
    by destruct (PQueue.is_idle _).
  - intros cfg listing beatMapSets acts.
    apply (run_invariant_all throttle_inv).
    + intros act s s'. apply throttle_inv_step.
    + apply throttle_inv_session.
Qed.

Lemma rate_limit_throttle_witness :
  let st := run [StartNext] (session Config.defaults None [{| id := 7 |}]) in
  let st' := on_rateLimited st in
  PQueue.isPaused (queue st') = true
  /\ PQueue.concurrency (queue st') = 1
  /\ testRequest st' = true
  /\ timers st' = timers st ++ [60000%N].
Proof.
  exact (proj1 (proj2 (rate_limit_throttle
                         (run [StartNext] (session Config.defaults None [{| id := 7 |}]))))
           eq_refl).
Defined.

(** *** Rate-limited attempts *)

Lemma step_StartNext st st' :
  step StartNext st = Some st' ->
  exists j rest,
    PQueue._queue (queue st) = j :: rest
    /\ PQueue._queue (queue st') = rest
    /\ running st' =
         running st ++
         [{| job := j;
             attempt := {| beatMapSet := target j; retries := 3; alt := false |} |}]
    /\ requested st' = requested st ++ [(id (target j), false)].
Proof.
  unfold step, PQueue.dequeue. intros H.
  destruct (PQueue.can_start (queue st)); [|discriminate].
  destruct (PQueue._queue (queue st)) as [|j rest]; [discriminate|].
  injection H as <-. by exists j, rest.
Qed.

(** C3, as the code has it. A 429 ends the call without an exception: the
    only event is [rateLimited] (no [retrying]), nothing is added to the
    not-downloaded list, and a new job for the same beatmap set is added at
    the back of the queue. That job calls [_downloadFile] with the default
    options: whatever the options of the rate-limited attempt were, the
    download starts over with 3 retries on the primary mirror. *)
Theorem rate_limited_attempt_is_queued_afresh
    (a : Attempt) (response : Response) (st : State) :
  status response = 429%N ->
  let (st', next) := _downloadFile_settle a (Resolved response) st in
  next = None
  /\ emitted st' = emitted st ++ [EvRateLimited]
  /\ notDownloadedBeatMapSet st' = notDownloadedBeatMapSet st
  /\ PQueue._queue (queue st') =
       PQueue._queue (queue st) ++ [{| wrapper := FromRateLimit; target := beatMapSet a |}]
  /\ (forall s s', step StartNext s = Some s' ->
        exists j rest,
          PQueue._queue (queue s) = j :: rest
          /\ PQueue._queue (queue s') = rest
          /\ running s' =
               running s ++
               [{| job := j;
                   attempt := {| beatMapSet := target j; retries := 3; alt := false |} |}]
          /\ requested s' = requested s ++ [(id (target j), false)]).
Proof.
  intros H. rewrite downloadFile_settle_429 by done.
  unfold on_rateLimited, emit. simpl.
  repeat split; try (by destruct (PQueue.isPaused (queue st))).
  apply step_StartNext.
Qed.

Lemma rate_limited_attempt_is_queued_afresh_witness :
  let a := {| beatMapSet := {| id := 7 |}; retries := 0; alt := true |} in
  let st := new_DownloadManager Config.defaults in
  let (st', next) := _downloadFile_settle a (status_response 429) st in
  next = None
  /\ emitted st' = emitted st ++ [EvRateLimited]
  /\ notDownloadedBeatMapSet st' = notDownloadedBeatMapSet st
  /\ PQueue._queue (queue st') =
       PQueue._queue (queue st) ++ [{| wrapper := FromRateLimit; target := {| id := 7 |} |}]
  /\ (forall s s', step StartNext s = Some s' ->
        exists j rest,
          PQueue._queue (queue s) = j :: rest
          /\ PQueue._queue (queue s') = rest
          /\ running s' =
               running s ++
               [{| job := j;
                   attempt := {| beatMapSet := target j; retries := 3; alt := false |} |}]
          /\ requested s' = requested s ++ [(id (target j), false)]).
Proof.
  exact (rate_limited_attempt_is_queued_afresh
           {| beatMapSet := {| id := 7 |}; retries := 0; alt := true |}
           {| status := 429; contentDisposition := None; body := None |}
           (new_DownloadManager Config.defaults) eq_refl).
Defined.

(** C3 as stated fails: rate-limited on its fourth attempt (no retry left,
    alternate mirror), the beatmap set is attempted again with 3 retries on
    the primary mirror. *)
Lemma rate_limited_attempt_state_not_preserved :
  let b := {| id := 7 |} in
  let st1 :=
    run [StartNext; Settle 0 (status_response 500); Settle 0 (status_response 500);
         Settle 0 (status_response 500)]
      (session Config.defaults None [b]) in
  let st2 := run [Settle 0 (status_response 429); Timeout; StartNext] st1 in
  map attempt (running st1) = [{| beatMapSet := b; retries := 0; alt := true |}]
  /\ map attempt (running st2) = [{| beatMapSet := b; retries := 3; alt := false |}]
  /\ map attempt (running st2) <> map attempt (running st1)
  /\ last (requested st1) = Some (7%N, true)
  /\ last (requested st2) = Some (7%N, false).
Proof. vm_compute. repeat split; try done. Qed.

(** *** Failing attempts *)

Lemma attempt_fails_status s :
  s <> 200%N -> s <> 429%N -> attempt_fails (status_response s) = true.
Proof.
  intros H200 H429. simpl.
  destruct (N.eqb_spec s 429); [done|]. by destruct (N.eqb_spec s 200).
Qed.

Lemma attempt_fails_threw a o st :
  attempt_fails o = true ->
  exists st1 e, _downloadFile_try a o st = (st1, Threw e).
Proof.
  unfold attempt_fails, _downloadFile_try. destruct o as [|response]; [eauto|].
  destruct (status response =? 429)%N; [discriminate|].
  destruct (negb (status response =? 200)%N); [eauto|].
  destruct (_getFilename Util.replaceForbiddenChars response); [eauto|].
  destruct (body response) as [[chunks|chunks]|]; [discriminate|eauto..].
Qed.

Lemma settle_failure_retries a o st r :
  attempt_fails o = true -> retries a = S r ->
  exists st',
    _downloadFile_settle a o st =
      (st', Some {| beatMapSet := beatMapSet a; retries := r; alt := (r =? 0)%nat |})
    /\ emitted st' = emitted st ++ [EvRetrying (beatMapSet a); EvDownloading (beatMapSet a)]
    /\ requested st' = requested st ++ [(id (beatMapSet a), (r =? 0)%nat)]
    /\ notDownloadedBeatMapSet st' = notDownloadedBeatMapSet st.
Proof.
  intros Hf Hr. destruct (attempt_fails_threw a o st Hf) as (st1 & e & Htry).
  unfold _downloadFile_settle. rewrite Htry.
  apply downloadFile_try_threw in Htry as (He & Hn & Hq).
  unfold _downloadFile_catch. rewrite Hr. eexists. split; [reflexivity|].
  simpl. by rewrite He, Hn, Hq, <- app_assoc.
Qed.

Lemma settle_failure_last a o st :
  attempt_fails o = true -> retries a = 0 ->
  exists st' e,
    _downloadFile_settle a o st = (st', None)
    /\ emitted st' = emitted st ++ [EvError (beatMapSet a) e]
    /\ requested st' = requested st
    /\ notDownloadedBeatMapSet st' = notDownloadedBeatMapSet st ++ [beatMapSet a].
Proof.
  intros Hf Hr. destruct (attempt_fails_threw a o st Hf) as (st1 & e & Htry).
  unfold _downloadFile_settle. rewrite Htry.
  apply downloadFile_try_threw in Htry as (He & Hn & Hq).
  unfold _downloadFile_catch. rewrite Hr. eexists _, e. split; [done|].
  simpl. by rewrite He, Hn, Hq.
Qed.

(** C4. When the four successive attempts of a download all fail (status
    500, say), [_downloadFile] makes exactly four fetches, the first three
    on the primary mirror and the fourth on the alternate one, emits a
    [downloading] event before each fetch, a [retrying] event after each of
    the first three failures and one [error] event after the fourth, and
    appends the beatmap set to the not-downloaded list. Every failure of an
    attempt that has retries left leads to an attempt with one retry
    fewer. *)
Theorem four_failing_attempts
    (b : BeatMapSet) (o1 o2 o3 o4 : FetchOutcome) (st : State) :
  attempt_fails o1 = true -> attempt_fails o2 = true ->
  attempt_fails o3 = true -> attempt_fails o4 = true ->
  (exists st' e,
     _downloadFile b [o1; o2; o3; o4] st = (st', None)
     /\ requested st' =
          requested st ++ [(id b, false); (id b, false); (id b, false); (id b, true)]
     /\ emitted st' =
          emitted st ++
          [EvDownloading b; EvRetrying b; EvDownloading b; EvRetrying b;
           EvDownloading b; EvRetrying b; EvDownloading b; EvError b e]
     /\ count is_retrying (emitted st') = count is_retrying (emitted st) + 3
     /\ count is_error (emitted st') = count is_error (emitted st) + 1
     /\ notDownloadedBeatMapSet st' = notDownloadedBeatMapSet st ++ [b])
  /\ (forall a o s r,
        attempt_fails o = true -> retries a = S r ->
        snd (_downloadFile_settle a o s) =
        Some {| beatMapSet := beatMapSet a; retries := r; alt := (r =? 0)%nat |}).
Proof.
  intros H1 H2 H3 H4. split.
  - unfold _downloadFile, default_options.
    set (a0 := {| beatMapSet := b; retries := 3; alt := false |}).
    set (s0 := _downloadFile_begin a0 st).
    destruct (settle_failure_retries a0 o1 s0 2 H1 eq_refl)
      as (s1 & E1 & He1 & Hq1 & Hn1).
    cbn [beatMapSet a0 Nat.eqb id] in E1, He1, Hq1.
    set (a1 := {| beatMapSet := b; retries := 2; alt := false |}) in *.
    destruct (settle_failure_retries a1 o2 s1 1 H2 eq_refl)
      as (s2 & E2 & He2 & Hq2 & Hn2).
    cbn [beatMapSet a1 Nat.eqb id] in E2, He2, Hq2.
    set (a2 := {| beatMapSet := b; retries := 1; alt := false |}) in *.
    destruct (settle_failure_retries a2 o3 s2 0 H3 eq_refl)
      as (s3 & E3 & He3 & Hq3 & Hn3).
    cbn [beatMapSet a2 Nat.eqb id] in E3, He3, Hq3.
    set (a3 := {| beatMapSet := b; retries := 0; alt := true |}) in *.
    destruct (settle_failure_last a3 o4 s3 H4 eq_refl) as (s4 & e & E4 & He4 & Hq4 & Hn4).
    cbn [beatMapSet a3] in He4, Hn4.
    exists s4, e. cbn [settle_all]. rewrite E1, E2, E3, E4.
    assert (Hem : emitted s4 =
                  emitted st ++
                  [EvDownloading b; EvRetrying b; EvDownloading b; EvRetrying b;
                   EvDownloading b; EvRetrying b; EvDownloading b; EvError b e]).
    { rewrite He4, He3, He2, He1. subst s0. simpl. by rewrite <- !app_assoc. }
    split; [done|]. split; [|split; [done|]].
    + rewrite Hq4, Hq3, Hq2, Hq1. subst s0. simpl. by rewrite <- !app_assoc.
    + rewrite Hem, !count_app. split; [done|]. split; [done|].
      rewrite Hn4, Hn3, Hn2, Hn1. by subst s0.
  - intros a o s r Hf Hr.
    destruct (settle_failure_retries a o s r Hf Hr) as (s' & -> & _). done.
Qed.

Lemma four_failing_attempts_witness :
  let b := {| id := 7 |} in
  let st := new_DownloadManager Config.defaults in
  exists st' e,
    _downloadFile b [status_response 500; status_response 500;
                     status_response 500; status_response 500] st = (st', None)
    /\ requested st' =
         requested st ++ [(id b, false); (id b, false); (id b, false); (id b, true)]
    /\ emitted st' =
         emitted st ++
         [EvDownloading b; EvRetrying b; EvDownloading b; EvRetrying b;
          EvDownloading b; EvRetrying b; EvDownloading b; EvError b e]
    /\ count is_retrying (emitted st') = count is_retrying (emitted st) + 3
    /\ count is_error (emitted st') = count is_error (emitted st) + 1
    /\ notDownloadedBeatMapSet st' = notDownloadedBeatMapSet st ++ [b].
Proof.
  exact (proj1 (four_failing_attempts {| id := 7 |}
                  (status_response 500) (status_response 500)
                  (status_response 500) (status_response 500)
                  (new_DownloadManager Config.defaults)
                  eq_refl eq_refl eq_refl eq_refl)).
Defined.

(** *** The end signal *)

Lemma is_idle_spec q :
  PQueue.is_idle q = ((length (PQueue._queue q) =? 0)%nat && (PQueue._pendingCount q =? 0)%nat).
Proof. unfold PQueue.is_idle. by destruct (PQueue._queue q). Qed.

(** What a settled fetch other than a 429 changes. *)
Lemma settle_effect a o st st' next :
  not_rate_limited (Settle 0 o) = true ->
  _downloadFile_settle a o st = (st', next) ->
  PQueue._queue (queue st') = PQueue._queue (queue st)
  /\ PQueue.isPaused (queue st') = PQueue.isPaused (queue st)
  /\ PQueue._pendingCount (queue st') = PQueue._pendingCount (queue st)
  /\ timers st' = timers st /\ running st' = running st
  /\ processedCount st' = processedCount st /\ totalCount st' = totalCount st
  /\ count is_skipped (emitted st') = count is_skipped (emitted st)
  /\ count is_end (emitted st') = count is_end (emitted st)
  /\ count is_downloaded (emitted st') + length (notDownloadedBeatMapSet st') =
       count is_downloaded (emitted st) + length (notDownloadedBeatMapSet st)
       + match next with Some _ => 0 | None => 1 end.
Proof.
  intros Hok H. unfold_ops. simpl in Hok.
  split_cases; rewrite ?length_app; count_events; repeat split; lia.
Qed.

Ltac arith_cases :=
  repeat match goal with
         | |- context [(?x =? ?y)%nat] => destruct (Nat.eqb_spec x y)
         | H : context [(?x =? ?y)%nat] |- _ => destruct (Nat.eqb_spec x y)
         end;
  simpl in *; try lia.

#[local] Arguments Nat.eqb : simpl never.

(** The fields after the closure of a finished job has run and the queue
    has taken the job off its pending count. *)
Lemma job_done_fields w st :
  let st' := job_done w st in
  PQueue._queue (queue st') = PQueue._queue (queue st)
  /\ PQueue.isPaused (queue st') = PQueue.isPaused (queue st)
  /\ PQueue._pendingCount (queue st') = pred (PQueue._pendingCount (queue st))
  /\ timers st' = timers st /\ running st' = running st
  /\ totalCount st' = totalCount st
  /\ notDownloadedBeatMapSet st' = notDownloadedBeatMapSet st
  /\ processedCount st' =
       match w with
       | FromBulk => S (processedCount st)
       | FromRateLimit => processedCount st
       end
  /\ emitted st' =
       emitted st
       ++ match w with
          | FromBulk =>
              if (S (processedCount st) =? totalCount st)%nat
              then [EvEnd (notDownloadedBeatMapSet st)] else []
          | FromRateLimit => []
          end
       ++ (if PQueue.is_idle (PQueue.finished (queue st))
           then [EvEnd (notDownloadedBeatMapSet st)] else []).
Proof.
  unfold job_done, idle_check, on_idle, emit. destruct w; simpl.
  - destruct (S (processedCount st) =? totalCount st)%nat; simpl;
      destruct (PQueue.is_idle (PQueue.finished (queue st))); simpl;
      rewrite <- ?app_assoc, ?app_nil_r; done.
  - destruct (PQueue.is_idle (PQueue.finished (queue st))); simpl;
      rewrite ?app_nil_r; done.
Qed.

Lemma end_inv_step act st st' :
  not_rate_limited act = true -> end_inv st -> step act st = Some st' -> end_inv st'.
Proof.
  intros Hok (Hp & Ht & Hpc & Htot & Hr & Hq & Hterm & Hend) Hs.
  unfold expected_ends, all_terminal in Hend.
  destruct act as [|i o|].
  - (* the queue starts its head job *)
    unfold step, PQueue.dequeue in Hs.
    destruct (PQueue.can_start (queue st)); [|discriminate].
    destruct (PQueue._queue (queue st)) as [|j rest] eqn:Hqueue; [discriminate|].
    injection Hs as <-. apply Forall_cons in Hq as [Hj Hrest].
    unfold end_inv, expected_ends, all_terminal, _downloadFile_begin, emit. simpl in *.
    rewrite length_app, !count_snoc. simpl.
    repeat split; try done; try lia.
    + apply Forall_app. split; [done|]. by apply Forall_singleton.
    + rewrite Hend. arith_cases.
  - (* a fetch settles *)
    unfold step in Hs.
    destruct (running st !! i) as [r|] eqn:Hi; [|discriminate].
    pose proof (lookup_lt_Some _ _ _ Hi) as Hlt.
    destruct (_downloadFile_settle (attempt r) o st) as [st1 next] eqn:Hset.
    apply settle_effect in Hset
      as (Eq & Ep & Epc & Et & Er & Epr & Etot & Esk & Eend & Edl); [|done].
    destruct next as [a'|]; injection Hs as <-.
    + unfold end_inv, expected_ends, all_terminal. simpl.
      rewrite length_insert, Eq, Ep, Epc, Et, Er, Epr, Etot, Esk, Eend.
      repeat split; try done; try lia.
      * apply Forall_insert; [done|]. simpl.
        by apply (Forall_lookup_1 _ _ _ _ Hr Hi).
    + pose proof (Forall_lookup_1 _ _ _ _ Hr Hi) as Hw. simpl in Hw.
      rewrite Hw. set (st2 := upd_running (fun l => delete i l) st1).
      destruct (job_done_fields FromBulk st2)
        as (Fq & Fp & Fpc & Ft & Fr & Ftot & Fnd & Fpr & Fem).
      rewrite is_idle_spec in Fem.
      assert (Hlen : length (delete i (running st1)) = pred (length (running st))).
      { rewrite Er, length_delete; [lia|eauto]. }
      unfold end_inv, expected_ends, all_terminal.
      rewrite Fq, Fp, Fpc, Ft, Fr, Ftot, Fnd, Fpr, Fem. subst st2. simpl.
      rewrite Hlen, Eq, Ep, Epc, Et, Epr, Etot, Hpc, !count_app, Esk, Eend.
      repeat split; try done; try lia.
      * rewrite Er. by apply Forall_delete.
      * arith_cases; unfold count in *; simpl in *; lia.
      * rewrite Hend. arith_cases; unfold count in *; simpl in *; lia.
  - (* no timer is ever set *)
    simpl in Hs. rewrite Ht in Hs. discriminate.
Qed.

Lemma bulk_inv_each T k st b :
  k < T -> bulk_inv T k st -> bulk_inv T (S k) (bulkDownload_each st b).
Proof.
  intros Hk (Ht & Hp & Hti & Hr & Hpc & Hsum & Hq & Hdl & Hsk & Hnd & Hend).
  unfold bulkDownload_each, bulk_inv, emit.
  destruct (_isBeatmapExisting (id b) st); simpl.
  - rewrite Ht. destruct (Nat.eqb_spec (S (processedCount st)) T) as [Hlast|Hlast];
      simpl; rewrite ?count_snoc; simpl; rewrite ?Hend, ?Hdl, ?Hsk;
      repeat split; try done; try lia; arith_cases.
  - rewrite length_app. simpl. repeat split; try done; try lia.
    apply Forall_app. split; [done|]. by apply Forall_singleton.
Qed.

Lemma bulk_inv_foldl T l : forall k st,
  k + length l <= T -> bulk_inv T k st ->
  bulk_inv T (k + length l) (foldl bulkDownload_each st l).
Proof.
  induction l as [|b l IH]; intros k st Hk H; simpl.
  - by rewrite Nat.add_0_r.
  - simpl in Hk. replace (k + S (length l)) with (S k + length l) by lia.
    apply IH; [lia|]. apply bulk_inv_each; [lia|done].
Qed.

Lemma end_inv_session cfg listing beatMapSets :
  end_inv (session cfg listing beatMapSets)
  /\ totalCount (session cfg listing beatMapSets) = length beatMapSets.
Proof.
  unfold session, bulkDownload.
  set (st0 := setSongsDirectory "Songs" listing (new_DownloadManager cfg)).
  assert (H0 : bulk_inv (length beatMapSets) 0
                 (upd_totalCount (fun _ => length beatMapSets)
                    (upd_processedCount (fun _ => 0) st0))).
  { destruct (setSongsDirectory_frame "Songs" listing (new_DownloadManager cfg))
      as (_ & Hq & _ & Hnd & _ & _ & _ & Hr & _ & _ & Ht).
    destruct (setSongsDirectory_emitted "Songs" listing (new_DownloadManager cfg))
      as (l & Hem & Hl).
    fold st0 in Hq, Hnd, Hr, Ht, Hem.
    unfold bulk_inv. simpl. rewrite Hq, Hnd, Hr, Ht, Hem. simpl.
    rewrite !(count_indexing _ l) by done.
    repeat split; try done. arith_cases. }
  apply (bulk_inv_foldl _ beatMapSets 0) in H0; [|simpl; lia]. simpl in H0.
  destruct H0 as (Ht & Hp & Hti & Hr & Hpc & Hsum & Hq & Hdl & Hsk & Hnd & Hend).
  split; [|done].
  unfold end_inv, expected_ends, all_terminal.
  rewrite Hp, Hti, Hr, Hpc, Hnd, Hdl, Hsk, Hend, Ht. simpl.
  repeat split; try done; try lia. arith_cases.
Qed.

Lemma end_inv_run cfg listing beatMapSets acts :
  no_rate_limit acts = true ->
  let st := run acts (session cfg listing beatMapSets) in
  end_inv st /\ totalCount st = length beatMapSets.
Proof.
  intros Hok.
  apply (run_invariant not_rate_limited
           (fun st => end_inv st /\ totalCount st = length beatMapSets)); [|done|].
  - intros act st st' Hact [Hinv Htot] Hs. split; [by eapply end_inv_step|].
    rewrite <- Htot. clear Hinv Htot. destruct act as [|i o|]; unfold_ops;
      unfold PQueue.dequeue in *; split_cases; done.
  - apply end_inv_session.
Qed.

(** C1, as the code has it. In a run in which no fetch is answered with
    429, every beatmap set is downloaded, skipped, recorded as failed,
    waiting in the queue or running; no [end] event is emitted while a job
    is waiting or running; and once none is, [end] has been emitted once if
    every beatmap set was skipped, and twice otherwise: by the counter of
    processed beatmap sets and, in the same step, by the [idle] listener of
    the queue, which is not guarded. Nothing is emitted for an empty
    collection. *)
Theorem end_signal_without_rate_limit
    (cfg : Config.t) (listing : option (list string))
    (beatMapSets : list BeatMapSet) (acts : list Action) :
  no_rate_limit acts = true ->
  let st := run acts (session cfg listing beatMapSets) in
  let total := length beatMapSets in
  let skipped := count is_skipped (emitted st) in
  count is_downloaded (emitted st) + skipped + length (notDownloadedBeatMapSet st)
    + length (PQueue._queue (queue st)) + length (running st) = total
  /\ count is_end (emitted st) =
       if all_terminal st then
         if (skipped =? total)%nat then (if (total =? 0)%nat then 0 else 1) else 2
       else 0.
Proof.
  intros Hok st total skipped.
  destruct (end_inv_run cfg listing beatMapSets acts Hok)
    as ((_ & _ & _ & Htot & _ & _ & Hterm & Hend) & Ht).
  fold st in Htot, Hterm, Hend, Ht. unfold expected_ends in Hend.
  subst total skipped. rewrite Hend, <- Ht. split; [lia|done].
Qed.

Lemma end_signal_without_rate_limit_witness :
  let st := run [StartNext; Settle 0 (Resolved (ok_response None))]
              (session Config.defaults (Some ["8 Artist - Title"])
                 [{| id := 7 |}; {| id := 8 |}]) in
  count is_downloaded (emitted st) + count is_skipped (emitted st)
    + length (notDownloadedBeatMapSet st)
    + length (PQueue._queue (queue st)) + length (running st) = 2
  /\ count is_end (emitted st) =
       if all_terminal st then
         if (count is_skipped (emitted st) =? 2)%nat then (if (2 =? 0)%nat then 0 else 1) else 2
       else 0.
Proof.
  exact (end_signal_without_rate_limit Config.defaults (Some ["8 Artist - Title"])
           [{| id := 7 |}; {| id := 8 |}]
           [StartNext; Settle 0 (Resolved (ok_response None))] eq_refl).
Defined.

(** C1 as stated fails: one beatmap set, downloaded at the first attempt;
    [end] is emitted by the counter and again by the [idle] listener. *)
Lemma end_emitted_again_on_idle :
  let b := {| id := 7 |} in
  let st := run [StartNext; Settle 0 (Resolved (ok_response None))]
              (session Config.defaults None [b]) in
  emitted st = [EvDownloading b; EvDownloaded b; EvEnd []; EvEnd []]
  /\ count is_end (emitted st) <> 1.
Proof. vm_compute. split; [reflexivity | discriminate]. Qed.

(** C2 on the failing input: one beatmap set whose first fetch is answered
    with 429. The closure of [bulkDownload] counts it as processed although
    it was only put back in the queue, and [end] is emitted with nothing
    downloaded, skipped or failed out of one beatmap set. *)
Lemma end_emitted_for_requeued_beatmap :
  let b := {| id := 7 |} in
  let st := run [StartNext; Settle 0 (status_response 429)]
              (session Config.defaults None [b]) in
  emitted st = [EvDownloading b; EvRateLimited; EvEnd []]
  /\ PQueue._queue (queue st) = [{| wrapper := FromRateLimit; target := b |}]
  /\ count is_downloaded (emitted st) + count is_skipped (emitted st)
       + length (notDownloadedBeatMapSet st) = 0
  /\ totalCount st = 1.
Proof. vm_compute. repeat split. Qed.

(** The counter is not the number of downloads alone: a skipped beatmap set
    counts. *)
Example downloaded_counter_after_a_skip :
  let st := session Config.defaults (Some ["8 Artist - Title"]) [{| id := 8 |}] in
  getDownloadedBeatMapSetSize st = 1 /\ count is_downloaded (emitted st) = 0.
Proof. vm_compute. split; reflexivity. Qed.

(** The same chain inside a run: the beatmap set fails four times and the
    run ends with it as the only entry of the not-downloaded list. *)
Example failing_chain_in_a_run :
  let b := {| id := 7 |} in
  let st := run [StartNext; Settle 0 (status_response 500); Settle 0 (status_response 500);
                 Settle 0 (status_response 500); Settle 0 (status_response 500)]
              (session Config.defaults None [b]) in
  requested st = [(7%N, false); (7%N, false); (7%N, false); (7%N, true)]
  /\ count is_retrying (emitted st) = 3
  /\ count is_error (emitted st) = 1
  /\ notDownloadedBeatMapSet st = [b]
  /\ all_terminal st = true.
Proof. vm_compute. repeat split. Qed.

(** A 429 followed by a 200: no [retrying] event, one [downloaded] event. *)
Example rate_limited_then_downloaded :
  let b := {| id := 7 |} in
  let st := run [StartNext; Settle 0 (status_response 429); Timeout; StartNext;
                 Settle 0 (Resolved (ok_response None))]
              (session Config.defaults None [b]) in
  count is_retrying (emitted st) = 0
  /\ count is_downloaded (emitted st) = 1
  /\ notDownloadedBeatMapSet st = []
  /\ created st = ["Untitled.osz"].
Proof. vm_compute. repeat split. Qed.

(** ** More on runs *)

(** The ways a settled fetch can go, with what each changes. *)
Lemma settle_cases a o st st' next :
  _downloadFile_settle a o st = (st', next) ->
  let b := beatMapSet a in
  (config st' = config st /\ existingBeatmaps st' = existingBeatmaps st
   /\ running st' = running st
   /\ processedCount st' = processedCount st /\ totalCount st' = totalCount st
   /\ skipped_targets (emitted st') = skipped_targets (emitted st)
   /\ PQueue._pendingCount (queue st') = PQueue._pendingCount (queue st))
  /\ ((* rate limited *)
      (next = None
       /\ PQueue._queue (queue st') =
            PQueue._queue (queue st) ++ [{| wrapper := FromRateLimit; target := b |}]
       /\ emitted st' = emitted st ++ [EvRateLimited]
       /\ notDownloadedBeatMapSet st' = notDownloadedBeatMapSet st
       /\ requested st' = requested st)
      \/ (* downloaded *)
      (next = None
       /\ PQueue._queue (queue st') = PQueue._queue (queue st)
       /\ emitted st' = emitted st ++ [EvDownloaded b]
       /\ notDownloadedBeatMapSet st' = notDownloadedBeatMapSet st
       /\ requested st' = requested st)
      \/ (* retried *)
      (exists r,
         retries a = S r
         /\ next = Some {| beatMapSet := b; retries := r; alt := (r =? 0)%nat |}
         /\ PQueue._queue (queue st') = PQueue._queue (queue st)
         /\ emitted st' = emitted st ++ [EvRetrying b; EvDownloading b]
         /\ notDownloadedBeatMapSet st' = notDownloadedBeatMapSet st
         /\ requested st' = requested st ++ [(id b, (r =? 0)%nat)])
      \/ (* given up *)
      (exists e,
         retries a = 0
         /\ next = None
         /\ PQueue._queue (queue st') = PQueue._queue (queue st)
         /\ emitted st' = emitted st ++ [EvError b e]
         /\ notDownloadedBeatMapSet st' = notDownloadedBeatMapSet st ++ [b]
         /\ requested st' = requested st)).
Proof.
  intros H b. subst b. unfold_ops. unfold skipped_targets.
  split_cases; rewrite ?omap_app, ?app_nil_r; (split; [done|]);
    first [ by left
          | by right; left
          | right; right; left; eexists; rewrite <- ?app_assoc;
            repeat split; try done; by destruct n
          | right; right; right; eexists; by repeat split ].
Qed.

Lemma downloaded_targets_snoc l e :
  downloaded_targets (l ++ [e]) =
  downloaded_targets l ++ match e with EvDownloaded b => [b] | _ => [] end.
Proof. unfold downloaded_targets. rewrite omap_app. by destruct e. Qed.

Lemma skipped_targets_snoc l e :
  skipped_targets (l ++ [e]) =
  skipped_targets l ++ match e with EvSkipped b => [b] | _ => [] end.
Proof. unfold skipped_targets. rewrite omap_app. by destruct e. Qed.

Lemma error_targets_snoc l e :
  error_targets (l ++ [e]) =
  error_targets l ++ match e with EvError b _ => [b] | _ => [] end.
Proof. unfold error_targets. rewrite omap_app. by destruct e. Qed.

(** What the end of a job leaves alone: it only emits [end] events. *)
Lemma job_done_frame w st :
  let st' := job_done w st in
  downloaded_targets (emitted st') = downloaded_targets (emitted st)
  /\ skipped_targets (emitted st') = skipped_targets (emitted st)
  /\ error_targets (emitted st') = error_targets (emitted st)
  /\ count is_downloading (emitted st') = count is_downloading (emitted st)
  /\ requested st' = requested st
  /\ existingBeatmaps st' = existingBeatmaps st
  /\ config st' = config st
  /\ testRequest st' = testRequest st
  /\ PQueue.concurrency (queue st') = PQueue.concurrency (queue st).
Proof.
  unfold job_done, idle_check, on_idle, emit.
  destruct w; simpl; repeat case_match; simpl;
    rewrite ?downloaded_targets_snoc, ?skipped_targets_snoc, ?error_targets_snoc,
      ?count_snoc, ?app_nil_r; simpl; rewrite ?app_nil_r, ?Nat.add_0_r; done.
Qed.

Lemma attempt_ok_requested st st' r :
  (forall p, p ∈ requested st -> p ∈ requested st') ->
  attempt_ok st r -> attempt_ok st' r.
Proof. intros Hsub (H1 & H2 & H3 & H4). repeat split; auto. Qed.

Lemma ledger_inv_step beatMapSets act st st' :
  ledger_inv beatMapSets st -> step act st = Some st' -> ledger_inv beatMapSets st'.
Proof.
  intros (Hrun & Hperm & Herr & Hfail & Hreq) Hs.
  unfold waiting_targets, running_targets in Hperm.
  destruct act as [|i o|].
  - (* the queue starts its head job *)
    unfold step, PQueue.dequeue in Hs.
    destruct (PQueue.can_start (queue st)); [|discriminate].
    destruct (PQueue._queue (queue st)) as [|j rest] eqn:Hqueue; [discriminate|].
    injection Hs as <-.
    unfold ledger_inv, waiting_targets, running_targets, _downloadFile_begin, emit,
      default_options. simpl in *.
    rewrite downloaded_targets_snoc, skipped_targets_snoc, error_targets_snoc,
      count_snoc, !app_nil_r, map_app, !length_app. simpl.
    split; [|split; [|split; [done|split; [|lia]]]].
    + apply Forall_app. split.
      * eapply Forall_impl; [exact Hrun|]. intros r. apply attempt_ok_requested.
        intros p Hp. simpl. apply elem_of_app. by left.
      * apply Forall_singleton. repeat split; simpl; try done; try lia.
        apply elem_of_app. right. by apply list_elem_of_singleton.
    + rewrite <- Hperm. solve_Permutation.
    + eapply Forall_impl; [exact Hfail|]. intros b Hb. simpl in *.
      apply elem_of_app. by left.
  - (* a fetch settles *)
    unfold step in Hs.
    destruct (running st !! i) as [r|] eqn:Hi; [|discriminate].
    pose proof (Forall_lookup_1 _ _ _ _ Hrun Hi) as (Hb & Hle & Halt & Hin).
    pose proof (Permutation_map (fun r => target (job r))
                  (delete_Permutation _ _ _ Hi)) as Hdel.
    simpl in Hdel.
    destruct (_downloadFile_settle (attempt r) o st) as [st1 next] eqn:Hset.
    apply settle_cases in Hset as ((_ & _ & Er & _ & _ & Esk & _) & Hcase).
    rewrite Hb in Hcase.
    assert (Hsub : forall l (x : N * bool), x ∈ requested st -> x ∈ requested st ++ l).
    { intros l x Hx. apply elem_of_app. by left. }
    destruct Hcase as [(-> & Eq & Eem & End & Erq)
                      |[(-> & Eq & Eem & End & Erq)
                      |[(n & Hn & -> & Eq & Eem & End & Erq)
                       |(e & Hn & -> & Eq & Eem & End & Erq)]]];
      injection Hs as <-.
    + (* rate limited: back to the queue *)
      destruct (job_done_fields (wrapper (job r))
                  (upd_running (fun l => delete i l) st1))
        as (Fq & _ & _ & _ & Fr & _ & Fnd & _ & _).
      destruct (job_done_frame (wrapper (job r))
                  (upd_running (fun l => delete i l) st1))
        as (Fdl & Fsk & Fer & Fcnt & Frq & _).
      unfold ledger_inv, waiting_targets, running_targets.
      rewrite Fq, Fr, Fnd, Fdl, Fsk, Fer, Fcnt, Frq. simpl.
      rewrite Er, Eq, Eem, End, Erq, downloaded_targets_snoc, skipped_targets_snoc,
        error_targets_snoc, count_snoc, !app_nil_r, map_app. simpl.
      split; [|split; [|split; [done|split; [done|lia]]]].
      * apply Forall_delete. eapply Forall_impl; [exact Hrun|].
        intros r'. apply attempt_ok_requested.
        intros p Hp. rewrite Frq. simpl. by rewrite Erq.
      * rewrite <- Hperm, Hdel. simpl. solve_Permutation.
    + (* downloaded *)
      destruct (job_done_fields (wrapper (job r))
                  (upd_running (fun l => delete i l) st1))
        as (Fq & _ & _ & _ & Fr & _ & Fnd & _ & _).
      destruct (job_done_frame (wrapper (job r))
                  (upd_running (fun l => delete i l) st1))
        as (Fdl & Fsk & Fer & Fcnt & Frq & _).
      unfold ledger_inv, waiting_targets, running_targets.
      rewrite Fq, Fr, Fnd, Fdl, Fsk, Fer, Fcnt, Frq. simpl.
      rewrite Er, Eq, Eem, End, Erq, downloaded_targets_snoc, skipped_targets_snoc,
        error_targets_snoc, count_snoc, !app_nil_r. simpl.
      split; [|split; [|split; [done|split; [done|lia]]]].
      * apply Forall_delete. eapply Forall_impl; [exact Hrun|].
        intros r'. apply attempt_ok_requested.
        intros p Hp. rewrite Frq. simpl. by rewrite Erq.
      * rewrite <- Hperm, Hdel. simpl. solve_Permutation.
    + (* retried *)
      unfold ledger_inv, waiting_targets, running_targets. simpl.
      rewrite Er, Eq, Eem, End, Erq, !length_app.
      replace (emitted st ++ [EvRetrying (target (job r)); EvDownloading (target (job r))])
        with ((emitted st ++ [EvRetrying (target (job r))])
                ++ [EvDownloading (target (job r))])
        by by rewrite <- app_assoc.
      rewrite !downloaded_targets_snoc, !skipped_targets_snoc, !error_targets_snoc,
        !count_snoc, !app_nil_r. simpl.
      split; [|split; [|split; [done|split; [|lia]]]].
      * apply Forall_insert.
        -- eapply Forall_impl; [exact Hrun|]. intros r'. apply attempt_ok_requested.
           intros p Hp. simpl. rewrite Erq. by apply Hsub.
        -- repeat split; simpl; try done; try lia.
           rewrite Erq. apply elem_of_app. right. by apply list_elem_of_singleton.
      * rewrite <- Hperm, list_fmap_insert. simpl.
        rewrite list_insert_id; [done|]. by rewrite list_lookup_fmap, Hi.
      * eapply Forall_impl; [exact Hfail|]. intros b' Hb'. simpl. by apply Hsub.
    + (* given up *)
      destruct (job_done_fields (wrapper (job r))
                  (upd_running (fun l => delete i l) st1))
        as (Fq & _ & _ & _ & Fr & _ & Fnd & _ & _).
      destruct (job_done_frame (wrapper (job r))
                  (upd_running (fun l => delete i l) st1))
        as (Fdl & Fsk & Fer & Fcnt & Frq & _).
      unfold ledger_inv, waiting_targets, running_targets.
      rewrite Fq, Fr, Fnd, Fdl, Fsk, Fer, Fcnt, Frq. simpl.
      rewrite Er, Eq, Eem, End, Erq, downloaded_targets_snoc, skipped_targets_snoc,
        error_targets_snoc, count_snoc, !app_nil_r. simpl.
      split; [|split; [|split; [by rewrite Herr|split; [|lia]]]].
      * apply Forall_delete. eapply Forall_impl; [exact Hrun|].
        intros r'. apply attempt_ok_requested.
        intros p Hp. rewrite Frq. simpl. by rewrite Erq.
      * rewrite <- Hperm, Hdel. simpl. solve_Permutation.
      * apply Forall_app. split; [done|]. apply Forall_singleton.
        rewrite Hn in Halt. change (0 =? 0)%nat with true in Halt.
        by rewrite <- Halt.
  - (* the timer fires *)
    simpl in Hs. destruct (timers st) as [|t rest]; [discriminate|].
    injection Hs as <-.
    unfold ledger_inv, waiting_targets, running_targets, queue_start, idle_check,
      on_idle, emit.
    repeat case_match; simpl;
      rewrite ?downloaded_targets_snoc, ?skipped_targets_snoc, ?error_targets_snoc,
        ?count_snoc, ?app_nil_r; simpl; rewrite ?Nat.add_0_r; done.
Qed.

(** *** What [bulkDownload] queues and what it skips *)

Lemma exists_in_index st st' b :
  existingBeatmaps st' = existingBeatmaps st -> exists_in st' b = exists_in st b.
Proof. unfold exists_in, _isBeatmapExisting. by intros ->. Qed.

Lemma bulkDownload_each_effect st b :
  let st' := bulkDownload_each st b in
  same_outside_queue st st'
  /\ PQueue._queue (queue st') =
       PQueue._queue (queue st) ++ (if exists_in st b then [] else [bulk_job b])
  /\ skipped_targets (emitted st') =
       skipped_targets (emitted st) ++ (if exists_in st b then [b] else [])
  /\ processedCount st' = processedCount st + (if exists_in st b then 1 else 0)
  /\ downloadedBeatMapSetSize st' =
       downloadedBeatMapSetSize st + (if exists_in st b then 1 else 0).
Proof.
  unfold bulkDownload_each, exists_in, same_outside_queue, emit, bulk_job.
  destruct (_isBeatmapExisting (id b) st); simpl; repeat case_match; simpl;
    rewrite ?downloaded_targets_snoc, ?skipped_targets_snoc, ?error_targets_snoc,
      ?count_snoc, ?app_nil_r; simpl; rewrite ?app_nil_r, ?Nat.add_0_r;
    repeat split; try done; lia.
Qed.

Lemma same_outside_queue_trans st1 st2 st3 :
  same_outside_queue st1 st2 -> same_outside_queue st2 st3 -> same_outside_queue st1 st3.
Proof. unfold same_outside_queue. intros H1 H2. intuition congruence. Qed.

Lemma foldl_bulkDownload_each l : forall st,
  let st' := foldl bulkDownload_each st l in
  same_outside_queue st st'
  /\ PQueue._queue (queue st') =
       PQueue._queue (queue st)
       ++ map bulk_job (List.filter (fun b => negb (exists_in st b)) l)
  /\ skipped_targets (emitted st') =
       skipped_targets (emitted st) ++ List.filter (exists_in st) l
  /\ processedCount st' = processedCount st + length (List.filter (exists_in st) l)
  /\ downloadedBeatMapSetSize st' =
       downloadedBeatMapSetSize st + length (List.filter (exists_in st) l).
Proof.
  induction l as [|b l IH]; intros st; simpl.
  - rewrite !app_nil_r. unfold same_outside_queue. repeat split; lia.
  - destruct (bulkDownload_each_effect st b) as (Hf & Hq & Hsk & Hp & Hd).
    destruct (IH (bulkDownload_each st b)) as (Hf' & Hq' & Hsk' & Hp' & Hd').
    assert (Hex : forall x, exists_in (bulkDownload_each st b) x = exists_in st x).
    { intros x. apply exists_in_index. apply Hf. }
    rewrite (List.filter_ext _ _ Hex) in Hsk', Hp', Hd'.
    rewrite (List.filter_ext (fun x => negb (exists_in (bulkDownload_each st b) x))
               (fun x => negb (exists_in st x))) in Hq'
      by (intros x; by rewrite Hex).
    split; [by eapply same_outside_queue_trans|].
    rewrite Hq', Hsk', Hp', Hd', Hq, Hsk, Hp, Hd.
    destruct (exists_in st b); simpl; rewrite <- ?app_assoc, ?app_nil_r;
      repeat split; try done; lia.
Qed.

(** X1. [bulkDownload] splits the collection by the index: the beatmap sets
    whose id is indexed are skipped, each with a [skipped] event and an
    increment of the downloaded counter, in collection order; the others are
    added to the queue, in collection order; [processedCount] starts at the
    number of skipped ones and [totalCount] is the size of the collection. *)
Theorem bulkDownload_splits_collection (st : State) (beatMapSets : list BeatMapSet) :
  let st' := bulkDownload beatMapSets st in
  PQueue._queue (queue st') =
    PQueue._queue (queue st)
    ++ map bulk_job (List.filter (fun b => negb (exists_in st b)) beatMapSets)
  /\ skipped_targets (emitted st') =
       skipped_targets (emitted st) ++ List.filter (exists_in st) beatMapSets
  /\ processedCount st' = length (List.filter (exists_in st) beatMapSets)
  /\ totalCount st' = length beatMapSets
  /\ getDownloadedBeatMapSetSize st' =
       getDownloadedBeatMapSetSize st + length (List.filter (exists_in st) beatMapSets)
  /\ existingBeatmaps st' = existingBeatmaps st.
Proof.
  unfold bulkDownload, getDownloadedBeatMapSetSize.
  set (st0 := upd_totalCount (fun _ => length beatMapSets)
                (upd_processedCount (fun _ => 0) st)).
  destruct (foldl_bulkDownload_each beatMapSets st0) as (Hf & Hq & Hsk & Hp & Hd).
  assert (Hex : forall x, exists_in st0 x = exists_in st x) by done.
  rewrite (List.filter_ext _ _ Hex) in Hsk, Hp, Hd.
  rewrite (List.filter_ext (fun x => negb (exists_in st0 x))
             (fun x => negb (exists_in st x))) in Hq by done.
  destruct Hf as (_ & He & _ & _ & _ & _ & _ & _ & Ht & _).
  by rewrite Hq, Hsk, Hp, Hd, He, Ht.
Qed.

Lemma filter_split_Permutation {A} (p : A -> bool) (l : list A) :
  List.filter p l ++ List.filter (fun x => negb (p x)) l ≡ₚ l.
Proof.
  induction l as [|x l IH]; simpl; [done|].
  destruct (p x); simpl.
  - by rewrite IH.
  - by rewrite <- Permutation_middle, IH.
Qed.

Lemma targets_of_indexing l :
  Forall (fun e => exists i t, e = EvIndexing i t) l ->
  downloaded_targets l = [] /\ skipped_targets l = [] /\ error_targets l = [].
Proof.
  induction 1 as [|e l (i & t & ->) _ (H1 & H2 & H3)]; [done|].
  split; [exact H1|]. split; [exact H2 | exact H3].
Qed.

(** A manager that has only indexed a songs folder. *)
Lemma indexed_manager cfg dir listing :
  let st := setSongsDirectory dir listing (new_DownloadManager cfg) in
  config st = cfg
  /\ queue st = PQueue.create (configured_concurrency cfg)
  /\ running st = [] /\ requested st = [] /\ timers st = []
  /\ notDownloadedBeatMapSet st = [] /\ testRequest st = false
  /\ downloadedBeatMapSetSize st = 0
  /\ downloaded_targets (emitted st) = []
  /\ skipped_targets (emitted st) = []
  /\ error_targets (emitted st) = []
  /\ count is_downloading (emitted st) = 0.
Proof.
  destruct (setSongsDirectory_frame dir listing (new_DownloadManager cfg))
    as (Hc & Hq & Hd & Hnd & Htr & _ & _ & Hr & Hrq & _ & Ht).
  destruct (setSongsDirectory_emitted dir listing (new_DownloadManager cfg))
    as (l & Hem & Hl).
  destruct (targets_of_indexing l Hl) as (H1 & H2 & H3).
  simpl in *. rewrite Hc, Hq, Hd, Hnd, Htr, Hr, Hrq, Ht, Hem, H1, H2, H3.
  rewrite (count_indexing _ l) by done. done.
Qed.

(** Steps never emit [skipped]: only the [forEach] of [bulkDownload] does. *)
Lemma skipped_targets_step act st st' :
  step act st = Some st' -> skipped_targets (emitted st') = skipped_targets (emitted st).
Proof.
  intros Hs. destruct act as [|i o|].
  - unfold step, PQueue.dequeue in Hs.
    destruct (PQueue.can_start (queue st)); [|discriminate].
    destruct (PQueue._queue (queue st)) as [|j rest]; [discriminate|].
    injection Hs as <-. unfold _downloadFile_begin, emit. simpl.
    by rewrite skipped_targets_snoc, app_nil_r.
  - unfold step in Hs.
    destruct (running st !! i) as [r|]; [|discriminate].
    destruct (_downloadFile_settle (attempt r) o st) as [st1 next] eqn:Hset.
    apply settle_cases in Hset as ((_ & _ & _ & _ & _ & Esk & _) & _).
    destruct next as [a'|]; injection Hs as <-; [done|].
    destruct (job_done_frame (wrapper (job r)) (upd_running (fun l => delete i l) st1))
      as (_ & Fsk & _).
    by rewrite Fsk.
  - simpl in Hs. destruct (timers st) as [|t rest]; [discriminate|].
    injection Hs as <-. unfold queue_start, idle_check, on_idle, emit.
    repeat case_match; simpl; rewrite ?skipped_targets_snoc, ?app_nil_r; done.
Qed.

Lemma skipped_targets_run acts : forall st,
  skipped_targets (emitted (run acts st)) = skipped_targets (emitted st).
Proof.
  induction acts as [|act acts IH]; intros st; simpl; [done|].
  destruct (step act st) as [st'|] eqn:Hs; [|apply IH].
  rewrite IH. by eapply skipped_targets_step.
Qed.

(** The beatmap sets a session skips are the indexed ones, in collection
    order. *)
Lemma skipped_targets_session cfg listing beatMapSets :
  skipped_targets (emitted (session cfg listing beatMapSets)) =
  List.filter (exists_in (setSongsDirectory "Songs" listing (new_DownloadManager cfg)))
    beatMapSets.
Proof.
  unfold session.
  destruct (indexed_manager cfg "Songs" listing)
    as (_ & _ & _ & _ & _ & _ & _ & _ & _ & Hs0 & _).
  unfold bulkDownload.
  set (st0 := setSongsDirectory "Songs" listing (new_DownloadManager cfg)) in *.
  set (st1 := upd_totalCount (fun _ => length beatMapSets)
                (upd_processedCount (fun _ => 0) st0)).
  destruct (foldl_bulkDownload_each beatMapSets st1) as (_ & _ & Hsk & _).
  rewrite Hsk. subst st1. simpl. rewrite Hs0. simpl.
  apply List.filter_ext. done.
Qed.

Lemma ledger_inv_session cfg listing beatMapSets :
  ledger_inv beatMapSets (session cfg listing beatMapSets).
Proof.
  unfold session.
  set (st0 := setSongsDirectory "Songs" listing (new_DownloadManager cfg)).
  destruct (indexed_manager cfg "Songs" listing)
    as (_ & Hq0 & Hr0 & Hrq0 & _ & Hnd0 & _ & _ & Hd0 & Hs0 & He0 & Hc0).
  fold st0 in Hq0, Hr0, Hrq0, Hnd0, Hd0, Hs0, He0, Hc0.
  unfold bulkDownload.
  set (st1 := upd_totalCount (fun _ => length beatMapSets)
                (upd_processedCount (fun _ => 0) st0)).
  destruct (foldl_bulkDownload_each beatMapSets st1)
    as ((_ & _ & Hr & Hrq & _ & _ & Hnd & _ & _ & _ & _ & _ & Hd & He & Hc)
        & Hq & Hsk & _ & _).
  unfold ledger_inv, waiting_targets, running_targets.
  rewrite Hr, Hrq, Hnd, Hd, He, Hc, Hq, Hsk. subst st1. simpl.
  rewrite Hr0, Hrq0, Hnd0, Hd0, He0, Hc0, Hs0, Hq0. simpl.
  rewrite map_map, app_nil_r. simpl. rewrite map_id.
  repeat split; try done. apply filter_split_Permutation.
Qed.

Lemma ledger_inv_run cfg listing beatMapSets acts :
  ledger_inv beatMapSets (run acts (session cfg listing beatMapSets)).
Proof.
  apply (run_invariant_all (ledger_inv beatMapSets)).
  - intros act st st'. apply ledger_inv_step.
  - apply ledger_inv_session.
Qed.

(** X2. At every point of every run, rate-limited or not, each beatmap set
    of the collection is in exactly one place: downloaded, skipped, in the
    not-downloaded list, waiting in the queue, or running. None is lost and
    none is counted twice. *)
Theorem collection_is_partitioned
    (cfg : Config.t) (listing : option (list string))
    (beatMapSets : list BeatMapSet) (acts : list Action) :
  let st := run acts (session cfg listing beatMapSets) in
  downloaded_targets (emitted st) ++ skipped_targets (emitted st)
    ++ notDownloadedBeatMapSet st ++ waiting_targets st ++ running_targets st
  ≡ₚ beatMapSets.
Proof. apply ledger_inv_run. Qed.

(** X3. At every point of every run, each started download works on the
    beatmap set of its job with at most three retries left, and it fetches
    from the alternate mirror exactly when no retry is left. *)
Theorem alternate_mirror_only_without_retries
    (cfg : Config.t) (listing : option (list string))
    (beatMapSets : list BeatMapSet) (acts : list Action) :
  let st := run acts (session cfg listing beatMapSets) in
  Forall (fun r =>
            beatMapSet (attempt r) = target (job r)
            /\ retries (attempt r) <= 3
            /\ alt (attempt r) = (retries (attempt r) =? 0)%nat)
    (running st).
Proof.
  destruct (ledger_inv_run cfg listing beatMapSets acts) as (H & _).
  eapply Forall_impl; [exact H|]. intros r (H1 & H2 & H3 & _). done.
Qed.

(** *** Attempts before a beatmap set is given up *)

Lemma used_lookup budget b (l : list Running) i r :
  l !! i = Some r ->
  sum_list_with (used_by budget b) l =
  used_by budget b r + sum_list_with (used_by budget b) (delete i l).
Proof.
  revert i. induction l as [|x l IH]; intros [|i] Hi; try done; simpl in *.
  - by injection Hi as ->.
  - rewrite (IH i Hi). lia.
Qed.

Lemma used_insert budget b (l : list Running) i r r' :
  l !! i = Some r ->
  sum_list_with (used_by budget b) (<[i:=r']> l) + used_by budget b r =
  sum_list_with (used_by budget b) l + used_by budget b r'.
Proof.
  revert i. induction l as [|x l IH]; intros [|i] Hi; try done; simpl in *.
  - injection Hi as ->. lia.
  - pose proof (IH i Hi). lia.
Qed.

(** What the end of a job and the resume of the queue add to the events are
    [end] events. *)
Lemma count_ends p l l' :
  (forall nd, p (EvEnd nd) = false) ->
  Forall (fun e => exists nd, e = EvEnd nd) l' -> count p (l ++ l') = count p l.
Proof.
  intros Hp Hl. rewrite count_app.
  assert (count p l' = 0) as ->; [|lia].
  induction Hl as [|e l'' (nd & ->) _ IH]; [done|].
  unfold count in *. simpl. by rewrite Hp.
Qed.

Lemma job_done_counts p w st :
  (forall nd, p (EvEnd nd) = false) ->
  count p (emitted (job_done w st)) = count p (emitted st).
Proof.
  intros Hp. destruct (job_done_fields w st) as (_ & _ & _ & _ & _ & _ & _ & _ & ->).
  rewrite app_assoc. rewrite !count_ends; try done.
  - repeat case_match; repeat constructor; eauto.
  - repeat case_match; repeat constructor; eauto.
Qed.

Lemma attempts_inv_step beatMapSets b act st st' :
  ledger_inv beatMapSets st -> attempts_inv b st -> step act st = Some st' ->
  attempts_inv b st'.
Proof.
  intros (Hrun & _) (H4 & H3) Hs. unfold attempts_inv, used in *.
  destruct act as [|i o|].
  - unfold step, PQueue.dequeue in Hs.
    destruct (PQueue.can_start (queue st)); [|discriminate].
    destruct (PQueue._queue (queue st)) as [|j rest] eqn:Hqueue; [discriminate|].
    injection Hs as <-. unfold _downloadFile_begin, emit, default_options. simpl.
    rewrite !count_snoc, !sum_list_with_app. simpl. unfold used_by in *. simpl.
    destruct (id (target j) =? id b)%N; simpl; split; lia.
  - unfold step in Hs.
    destruct (running st !! i) as [r|] eqn:Hi; [|discriminate].
    pose proof (Forall_lookup_1 _ _ _ _ Hrun Hi) as (Hb & Hle & _).
    destruct (_downloadFile_settle (attempt r) o st) as [st1 next] eqn:Hset.
    apply settle_cases in Hset as ((_ & _ & Er & _) & Hcase).
    rewrite Hb in Hcase.
    pose proof (used_lookup 4 b _ _ _ Hi) as Hsum4.
    pose proof (used_lookup 3 b _ _ _ Hi) as Hsum3.
    destruct Hcase as [(-> & _ & Eem & _)
                      |[(-> & _ & Eem & _)
                      |[(n & Hn & -> & _ & Eem & _)
                       |(e & Hn & -> & _ & Eem & _)]]];
      injection Hs as <-.
    + destruct (job_done_fields (wrapper (job r))
                  (upd_running (fun l => delete i l) st1))
        as (_ & _ & _ & _ & Fr & _).
      rewrite !job_done_counts, Fr by done. simpl. rewrite Er, Eem, !count_snoc. simpl.
      unfold used_by in *. lia.
    + destruct (job_done_fields (wrapper (job r))
                  (upd_running (fun l => delete i l) st1))
        as (_ & _ & _ & _ & Fr & _).
      rewrite !job_done_counts, Fr by done. simpl. rewrite Er, Eem, !count_snoc. simpl.
      unfold used_by in *. lia.
    + simpl. rewrite Er, Eem.
      replace (emitted st ++ [EvRetrying (target (job r)); EvDownloading (target (job r))])
        with ((emitted st ++ [EvRetrying (target (job r))])
                ++ [EvDownloading (target (job r))])
        by by rewrite <- app_assoc.
      rewrite !count_snoc. simpl.
      set (r' := {| job := job r;
                    attempt := {| beatMapSet := target (job r);
                                  retries := n; alt := (n =? 0)%nat |} |}).
      pose proof (used_insert 4 b (running st) i r r' Hi) as Hins4.
      pose proof (used_insert 3 b (running st) i r r' Hi) as Hins3.
      unfold used_by in *. simpl in Hins4, Hins3.
      rewrite Hn in *.
      destruct (id (target (job r)) =? id b)%N; simpl; lia.
    + destruct (job_done_fields (wrapper (job r))
                  (upd_running (fun l => delete i l) st1))
        as (_ & _ & _ & _ & Fr & _).
      rewrite !job_done_counts, Fr by done. simpl. rewrite Er, Eem, !count_snoc. simpl.
      unfold used_by in *. rewrite Hn in *.
      destruct (id (target (job r)) =? id b)%N; simpl in *; lia.
  - simpl in Hs. destruct (timers st) as [|t rest]; [discriminate|].
    injection Hs as <-. unfold queue_start, idle_check, on_idle, emit.
    repeat case_match; simpl; rewrite ?count_snoc; simpl; lia.
Qed.

Lemma attempts_inv_session cfg listing beatMapSets b :
  attempts_inv b (session cfg listing beatMapSets).
Proof.
  unfold session, bulkDownload.
  apply foldl_invariant.
  - intros st x (H4 & H3). unfold attempts_inv, used in *. unfold_ops.
    split_cases; rewrite ?count_snoc; simpl; lia.
  - unfold attempts_inv, used. simpl.
    destruct (setSongsDirectory_frame "Songs" listing (new_DownloadManager cfg))
      as (_ & _ & _ & _ & _ & _ & _ & -> & _).
    destruct (setSongsDirectory_emitted "Songs" listing (new_DownloadManager cfg))
      as (l & -> & Hl).
    rewrite !count_app, !(count_indexing _ l) by done. simpl. lia.
Qed.

(** X4. The not-downloaded list is the list of the targets of the [error]
    events, in order, and every [error] event for a beatmap set comes after
    four [downloading] events and three [retrying] events for it that no
    earlier [error] event accounts for: a beatmap set is only given up after
    four attempts. *)
Theorem not_downloaded_after_four_attempts
    (cfg : Config.t) (listing : option (list string))
    (beatMapSets : list BeatMapSet) (acts : list Action) :
  let st := run acts (session cfg listing beatMapSets) in
  notDownloadedBeatMapSet st = error_targets (emitted st)
  /\ forall b,
       4 * count (is_error_of b) (emitted st) <= count (is_downloading_of b) (emitted st)
       /\ 3 * count (is_error_of b) (emitted st) <= count (is_retrying_of b) (emitted st).
Proof.
  intros st. split.
  - destruct (ledger_inv_run cfg listing beatMapSets acts) as (_ & _ & H1 & _). done.
  - intros b.
    assert (H : ledger_inv beatMapSets st /\ attempts_inv b st).
    { apply (run_invariant_all (fun s => ledger_inv beatMapSets s /\ attempts_inv b s)).
      - intros act s s' (Hl & Ha) Hs. split.
        + by eapply ledger_inv_step.
        + by eapply attempts_inv_step.
      - split; [apply ledger_inv_session | apply attempts_inv_session]. }
    destruct H as (_ & H4 & H3). lia.
Qed.

(** *** Which ids are fetched *)

Lemma bulkDownload_splits_collection_aux st beatMapSets :
  let st' := bulkDownload beatMapSets st in
  PQueue._queue (queue st') =
    PQueue._queue (queue st)
    ++ map bulk_job (List.filter (fun b => negb (exists_in st b)) beatMapSets)
  /\ running st' = running st
  /\ requested st' = requested st
  /\ existingBeatmaps st' = existingBeatmaps st.
Proof.
  unfold bulkDownload.
  set (st0 := upd_totalCount (fun _ => length beatMapSets)
                (upd_processedCount (fun _ => 0) st)).
  destruct (foldl_bulkDownload_each beatMapSets st0)
    as ((_ & He & Hr & Hrq & _) & Hq & _).
  rewrite (List.filter_ext (fun x => negb (exists_in st0 x))
             (fun x => negb (exists_in st x))) in Hq by done.
  by rewrite Hq, He, Hr, Hrq.
Qed.


Lemma fetch_inv_step (P : BeatMapSet -> Prop) beatMapSets act st st' :
  ledger_inv beatMapSets st -> fetch_inv P st -> step act st = Some st' ->
  fetch_inv P st' /\ existingBeatmaps st' = existingBeatmaps st.
Proof.
  intros (Hrun & _) (Hq & Hr & Hrq) Hs.
  destruct act as [|i o|].
  - unfold step, PQueue.dequeue in Hs.
    destruct (PQueue.can_start (queue st)); [|discriminate].
    destruct (PQueue._queue (queue st)) as [|j rest] eqn:Hqueue; [discriminate|].
    injection Hs as <-. apply Forall_cons in Hq as [Hj Hrest].
    unfold fetch_inv, _downloadFile_begin, emit, default_options. simpl.
    repeat split; try done.
    + apply Forall_app. split; [done|]. by apply Forall_singleton.
    + apply Forall_app. split; [done|]. apply Forall_singleton. eauto.
  - unfold step in Hs.
    destruct (running st !! i) as [r|] eqn:Hi; [|discriminate].
    pose proof (Forall_lookup_1 _ _ _ _ Hrun Hi) as (Hb & _).
    pose proof (Forall_lookup_1 _ _ _ _ Hr Hi) as HP. simpl in HP.
    destruct (_downloadFile_settle (attempt r) o st) as [st1 next] eqn:Hset.
    apply settle_cases in Hset as ((_ & Eex & Er & _) & Hcase).
    rewrite Hb in Hcase.
    destruct Hcase as [(-> & Eq & _ & _ & Erq)
                      |[(-> & Eq & _ & _ & Erq)
                      |[(n & _ & -> & Eq & _ & _ & Erq)
                       |(e & _ & -> & Eq & _ & _ & Erq)]]];
      injection Hs as <-.
    1,2,4:
      destruct (job_done_fields (wrapper (job r))
                  (upd_running (fun l => delete i l) st1))
        as (Fq & _ & _ & _ & Fr & _);
      destruct (job_done_frame (wrapper (job r))
                  (upd_running (fun l => delete i l) st1))
        as (_ & _ & _ & _ & Frq & Fex & _);
      unfold fetch_inv; rewrite Fq, Fr, Frq, Fex; simpl; rewrite Eq, Er, Erq, Eex;
      repeat split; try done; try (by apply Forall_delete).
    + apply Forall_app. split; [done|]. by apply Forall_singleton.
    + unfold fetch_inv. simpl. rewrite Eq, Er, Erq, Eex.
      repeat split; try done.
      * apply Forall_insert; done.
      * apply Forall_app. split; [done|]. apply Forall_singleton. eauto.
  - simpl in Hs. destruct (timers st) as [|t rest]; [discriminate|].
    injection Hs as <-.
    unfold fetch_inv, queue_start, idle_check, on_idle, emit.
    repeat case_match; simpl; done.
Qed.

(** X5. At every point of every run, each fetch that was issued is for a
    beatmap set of the collection whose id is not in the index: a beatmap
    set that exists in the songs folder is never fetched, and the index is
    the one built before [bulkDownload]. *)
Theorem existing_beatmaps_are_never_fetched
    (cfg : Config.t) (listing : option (list string))
    (beatMapSets : list BeatMapSet) (acts : list Action) :
  let st := run acts (session cfg listing beatMapSets) in
  existingBeatmaps st =
    existingBeatmaps (setSongsDirectory "Songs" listing (new_DownloadManager cfg))
  /\ Forall (fun p => exists b, b ∈ beatMapSets /\ id b = p.1
                                /\ _isBeatmapExisting p.1 st = false)
       (requested st).
Proof.
  set (st0 := setSongsDirectory "Songs" listing (new_DownloadManager cfg)).
  set (P := fun b => b ∈ beatMapSets /\ exists_in st0 b = false).
  assert (H : ledger_inv beatMapSets (run acts (session cfg listing beatMapSets))
              /\ fetch_inv P (run acts (session cfg listing beatMapSets))
              /\ existingBeatmaps (run acts (session cfg listing beatMapSets))
                 = existingBeatmaps st0).
  { apply (run_invariant_all
             (fun s => ledger_inv beatMapSets s /\ fetch_inv P s
                       /\ existingBeatmaps s = existingBeatmaps st0)).
    - intros act s s' (Hl & Hf & He) Hs.
      destruct (fetch_inv_step P beatMapSets act s s' Hl Hf Hs) as (Hf' & He').
      split; [by eapply ledger_inv_step|]. split; [done|]. by rewrite He'.
    - split; [apply ledger_inv_session|].
      unfold session. fold st0.
      destruct (bulkDownload_splits_collection_aux st0 beatMapSets)
        as (Hq & Hr & Hrq & He).
      destruct (indexed_manager cfg "Songs" listing)
        as (_ & Hq0 & Hr0 & Hrq0 & _).
      fold st0 in Hq0, Hr0, Hrq0.
      split; [|done]. unfold fetch_inv. rewrite Hq, Hr, Hrq, Hq0, Hr0, Hrq0. simpl.
      repeat split; try done.
      apply Forall_forall. intros j Hj.
      apply list_elem_of_In, in_map_iff in Hj as (b & <- & Hb).
      apply filter_In in Hb as [Hb Hex]. simpl. split.
      + by apply list_elem_of_In.
      + by destruct (exists_in st0 b). }
  destruct H as (_ & (_ & _ & Hrq) & He). split; [done|].
  eapply Forall_impl; [exact Hrq|]. intros p (b & (Hb & Hex) & Hid).
  exists b. repeat split; try done.
  rewrite <- Hid. unfold exists_in, _isBeatmapExisting in *. by rewrite He.
Qed.

(** *** The throttle along a run *)

Lemma probe_inv_step act st st' :
  probe_inv st -> step act st = Some st' ->
  probe_inv st' /\ config st' = config st.
Proof.
  unfold probe_inv. intros H Hs. destruct act as [|i o|]; unfold_ops;
    unfold PQueue.dequeue in *; split_cases; done.
Qed.

Lemma probe_inv_session cfg listing beatMapSets :
  probe_inv (session cfg listing beatMapSets)
  /\ config (session cfg listing beatMapSets) = cfg.
Proof.
  unfold session.
  destruct (indexed_manager cfg "Songs" listing)
    as (Hc & Hq & _ & _ & _ & _ & Ht & _).
  unfold bulkDownload.
  match goal with
  | |- context [foldl bulkDownload_each ?s beatMapSets] =>
      destruct (foldl_bulkDownload_each beatMapSets s)
        as ((Hc' & _ & _ & _ & _ & _ & _ & Ht' & _ & Hcc & _) & _)
  end.
  unfold probe_inv. rewrite Hcc, Ht', Hc'. simpl. by rewrite Hq, Ht, Hc.
Qed.

Lemma probe_inv_run cfg listing beatMapSets acts :
  let st := run acts (session cfg listing beatMapSets) in
  probe_inv st /\ config st = cfg.
Proof.
  apply (run_invariant_all (fun s => probe_inv s /\ config s = cfg)).
  - intros act s s' (Hp & Hc) Hs.
    destruct (probe_inv_step act s s' Hp Hs) as (Hp' & Hc').
    split; [exact Hp' | congruence].
  - apply probe_inv_session.
Qed.

(** X6. At every point of every run the live concurrency of the queue is 1
    while [testRequest] is set and the configured concurrency (1 when
    [parallel] is off) otherwise. *)
Theorem live_concurrency_is_one_or_configured
    (cfg : Config.t) (listing : option (list string))
    (beatMapSets : list BeatMapSet) (acts : list Action) :
  let st := run acts (session cfg listing beatMapSets) in
  PQueue.concurrency (queue st) =
  if testRequest st then 1 else configured_concurrency cfg.
Proof.
  destruct (probe_inv_run cfg listing beatMapSets acts) as (H & Hc).
  unfold probe_inv in H. by rewrite Hc in H.
Qed.

(** X7. Any response with status 200 ends the probing: once it has been
    handled [testRequest] is off and the queue has its configured
    concurrency again, also when the download itself then fails on the file
    name or on the body, and also while the queue is still paused. *)
Theorem status_200_ends_probing
    (cfg : Config.t) (listing : option (list string))
    (beatMapSets : list BeatMapSet) (acts : list Action)
    (i : nat) (response : Response) (st' : State) :
  status response = 200%N ->
  step (Settle i (Resolved response)) (run acts (session cfg listing beatMapSets))
    = Some st' ->
  testRequest st' = false
  /\ PQueue.concurrency (queue st') = configured_concurrency cfg
  /\ PQueue.isPaused (queue st') =
       PQueue.isPaused (queue (run acts (session cfg listing beatMapSets))).
Proof.
  intros H200 Hs.
  destruct (probe_inv_run cfg listing beatMapSets acts) as (H & Hc).
  revert H Hc Hs. generalize (run acts (session cfg listing beatMapSets)).
  intros st H Hc Hs. unfold probe_inv in H. rewrite Hc in H.
  unfold_ops. rewrite H200 in Hs. simpl in Hs.
  split_cases; rewrite ?Hc; done.
Qed.

Lemma status_200_ends_probing_witness :
  let acts := [StartNext; StartNext; Settle 0 (status_response 429)] in
  let st := run acts (session Config.defaults None [{| id := 7 |}; {| id := 8 |}]) in
  let ok := {| status := 200; contentDisposition := None; body := None |} in
  match step (Settle 0 (Resolved ok)) st with
  | Some st' =>
      testRequest st' = false
      /\ PQueue.concurrency (queue st') = configured_concurrency Config.defaults
      /\ PQueue.isPaused (queue st') = PQueue.isPaused (queue st)
  | None => False
  end.
Proof.
  intros acts st ok.
  destruct (step (Settle 0 (Resolved ok)) st) as [st'|] eqn:Hs.
  - exact (status_200_ends_probing Config.defaults None [{| id := 7 |}; {| id := 8 |}]
             acts 0 ok st' eq_refl Hs).
  - revert Hs. vm_compute. discriminate.
Defined.

Lemma pending_inv_step act st st' :
  probe_inv st -> pending_inv st -> step act st = Some st' -> pending_inv st'.
Proof.
  unfold probe_inv, pending_inv. intros Hp (Hpc & Hle) Hs.
  destruct act as [|i o|].
  - unfold step, PQueue.dequeue, PQueue.can_start in Hs.
    destruct (PQueue.isPaused (queue st)); [discriminate|]. simpl in Hs.
    destruct (Nat.ltb_spec (PQueue._pendingCount (queue st))
                (PQueue.concurrency (queue st))) as [Hlt|]; [|discriminate].
    destruct (PQueue._queue (queue st)) as [|j rest]; [discriminate|].
    injection Hs as <-. unfold _downloadFile_begin, emit. simpl.
    rewrite length_app. simpl. rewrite Hp in Hlt.
    destruct (testRequest st); lia.
  - unfold step in Hs.
    destruct (running st !! i) as [r|] eqn:Hi; [|discriminate].
    pose proof (lookup_lt_Some _ _ _ Hi) as Hlt.
    destruct (_downloadFile_settle (attempt r) o st) as [st1 next] eqn:Hset.
    apply settle_cases in Hset as ((Ec & _ & Er & _ & _ & _ & Epc) & Hcase).
    assert (Hnext : next = None \/ exists a', next = Some a').
    { destruct next; eauto. }
    destruct Hnext as [->|(a' & ->)]; injection Hs as <-.
    + destruct (job_done_fields (wrapper (job r))
                  (upd_running (fun l => delete i l) st1))
        as (_ & _ & Fpc & _ & Fr & _).
      destruct (job_done_frame (wrapper (job r))
                  (upd_running (fun l => delete i l) st1))
        as (_ & _ & _ & _ & _ & _ & Fc & _).
      rewrite Fpc, Fr, Fc. simpl. rewrite Epc, Er, Ec, length_delete by eauto.
      lia.
    + simpl. rewrite length_insert, Epc, Er, Ec. lia.
  - simpl in Hs. destruct (timers st) as [|t rest]; [discriminate|].
    injection Hs as <-. unfold queue_start, idle_check, on_idle, emit.
    repeat case_match; simpl; lia.
Qed.

(** X8. At every point of every run the number of downloads in flight is at
    most the configured concurrency (at most 1 when [parallel] is off or the
    configured concurrency is 0). *)
Theorem downloads_in_flight_are_bounded
    (cfg : Config.t) (listing : option (list string))
    (beatMapSets : list BeatMapSet) (acts : list Action) :
  let st := run acts (session cfg listing beatMapSets) in
  PQueue._pendingCount (queue st) = length (running st)
  /\ length (running st) <= max 1 (configured_concurrency cfg)
  /\ (Config.parallel cfg = false -> length (running st) <= 1).
Proof.
  assert (H : let st := run acts (session cfg listing beatMapSets) in
              (probe_inv st /\ config st = cfg) /\ pending_inv st).
  { apply (run_invariant_all
             (fun s => (probe_inv s /\ config s = cfg) /\ pending_inv s)).
    - intros act s s' ((Hp & Hc) & Hpd) Hs.
      destruct (probe_inv_step act s s' Hp Hs) as (Hp' & Hc').
      split; [split; [exact Hp' | congruence]|].
      exact (pending_inv_step act s s' Hp Hpd Hs).
    - split; [apply probe_inv_session|].
      unfold session.
      destruct (indexed_manager cfg "Songs" listing)
        as (_ & Hq & Hr & _).
      unfold bulkDownload.
      match goal with
      | |- context [foldl bulkDownload_each ?s beatMapSets] =>
          destruct (foldl_bulkDownload_each beatMapSets s)
            as ((_ & _ & Hr' & _ & _ & _ & _ & _ & _ & _ & _ & Hpc & _) & _)
      end.
      unfold pending_inv. rewrite Hpc, Hr'. simpl. rewrite Hq, Hr. simpl. lia. }
  destruct H as ((_ & Hc) & (Hpc & Hle)). rewrite Hc in Hle.
  split; [done|]. split; [done|].
  intros Hpar. unfold configured_concurrency in Hle. rewrite Hpar in Hle. lia.
Qed.

Lemma downloads_in_flight_are_bounded_witness :
  let st := run [StartNext; StartNext]
              (session {| Config.parallel := false; Config.concurrency := 5;
                          Config.intervalCap := 50; Config.interval := 60 |}
                 None [{| id := 7 |}; {| id := 8 |}]) in
  length (running st) <= 1.
Proof.
  exact (proj2 (proj2 (downloads_in_flight_are_bounded
                         {| Config.parallel := false; Config.concurrency := 5;
                            Config.intervalCap := 50; Config.interval := 60 |}
                         None [{| id := 7 |}; {| id := 8 |}] [StartNext; StartNext]))
           eq_refl).
Defined.


Lemma paused_inv_step act st st' :
  paused_inv st -> step act st = Some st' -> paused_inv st'.
Proof.
  unfold paused_inv. intros H Hs. destruct act as [|i o|].
  - unfold step, PQueue.dequeue, PQueue.can_start in Hs.
    destruct (PQueue.isPaused (queue st)) eqn:Hp; [discriminate|]. simpl in Hs.
    destruct (_ <? _)%nat; [|discriminate].
    destruct (PQueue._queue (queue st)) as [|j rest]; [discriminate|].
    injection Hs as <-. simpl. done.
  - unfold step in Hs.
    destruct (running st !! i) as [r|] eqn:Hi; [|discriminate].
    destruct (_downloadFile_settle (attempt r) o st) as [st1 next] eqn:Hset.
    assert (Hst1 : PQueue.isPaused (queue st1) = true -> PQueue._queue (queue st1) <> []).
    { clear Hs. unfold_ops. split_cases; try done;
        intros _ Hnil; by apply app_eq_nil in Hnil as [_ ?]. }
    destruct next as [a'|]; injection Hs as <-; [done|].
    destruct (job_done_fields (wrapper (job r))
                (upd_running (fun l => delete i l) st1)) as (Fq & Fp & _).
    by rewrite Fq, Fp.
  - simpl in Hs. destruct (timers st) as [|t rest]; [discriminate|].
    injection Hs as <-. unfold queue_start, idle_check, on_idle, emit.
    repeat case_match; simpl; try done.
Qed.

Lemma paused_inv_session cfg listing beatMapSets :
  paused_inv (session cfg listing beatMapSets).
Proof.
  unfold session, paused_inv.
  destruct (indexed_manager cfg "Songs" listing) as (_ & Hq & _).
  unfold bulkDownload.
  match goal with
  | |- context [foldl bulkDownload_each ?s beatMapSets] =>
      destruct (foldl_bulkDownload_each beatMapSets s)
        as ((_ & _ & _ & _ & _ & _ & _ & _ & _ & _ & Hp & _) & _)
  end.
  rewrite Hp. simpl. by rewrite Hq.
Qed.

(** *** The jobs a queue starts at once

    The queue starts waiting jobs inside [add], [start] and the assignment
    of [concurrency]. Any number of consecutive starts takes the jobs from
    the head of the queue, in order; with the directory check taken to
    succeed (see [_downloadFile_begin]) each start emits the [downloading]
    event of its job and makes its first fetch. *)
Lemma step_StartNext_started st st' :
  step StartNext st = Some st' ->
  exists b rest,
    waiting_targets st = b :: rest
    /\ waiting_targets st' = rest
    /\ running_targets st' = running_targets st ++ [b]
    /\ requested st' = requested st ++ [(id b, false)]
    /\ emitted st' = emitted st ++ [EvDownloading b]
    /\ same_but_started st st'.
Proof.
  unfold step, PQueue.dequeue, waiting_targets, running_targets. intros H.
  destruct (PQueue.can_start (queue st)); [|discriminate].
  destruct (PQueue._queue (queue st)) as [|j rest]; [discriminate|].
  injection H as <-. exists (target j), (map target rest). simpl.
  rewrite map_app. unfold same_but_started. by repeat split.
Qed.

Lemma same_but_started_trans st1 st2 st3 :
  same_but_started st1 st2 -> same_but_started st2 st3 -> same_but_started st1 st3.
Proof. unfold same_but_started. intros H1 H2. intuition congruence. Qed.

Lemma starts_take k : forall st,
  exists j,
    let st' := run (repeat StartNext k) st in
    j <= k
    /\ same_but_started st st'
    /\ emitted st' = emitted st ++ map EvDownloading (take j (waiting_targets st))
    /\ requested st' =
         requested st ++ map (fun b => (id b, false)) (take j (waiting_targets st))
    /\ running_targets st' = running_targets st ++ take j (waiting_targets st)
    /\ waiting_targets st' = drop j (waiting_targets st).
Proof.
  induction k as [|k IH]; intros st.
  - exists 0. simpl. rewrite take_0, drop_0, !app_nil_r.
    unfold same_but_started. by repeat split.
  - change (run (repeat StartNext (S k)) st)
      with (match step StartNext st with
            | Some st1 => run (repeat StartNext k) st1
            | None => run (repeat StartNext k) st
            end).
    destruct (step StartNext st) as [st1|] eqn:Hs.
    + destruct (IH st1) as (j & Hj & Hsame & Hem & Hrq & Hr & Hw).
      apply step_StartNext_started in Hs
        as (b & rest & Hw0 & Hw1 & Hr1 & Hrq1 & Hem1 & Hsame1).
      exists (S j). cbv zeta in *.
      rewrite Hem, Hrq, Hr, Hw, Hw0, Hw1, Hr1, Hrq1, Hem1, <- !app_assoc. simpl.
      split; [lia|]. split; [by eapply same_but_started_trans|]. by repeat split.
    + destruct (IH st) as (j & Hj & H). exists j. split; [lia | exact H].
Qed.

Lemma count_downloading_events p l :
  (forall b, p (EvDownloading b) = false) -> count p (map EvDownloading l) = 0.
Proof. intros Hp. unfold count. induction l as [|b l IH]; simpl; [done|]. by rewrite Hp. Qed.

Lemma count_downloading_app p l targets :
  (forall b, p (EvDownloading b) = false) ->
  count p (l ++ map EvDownloading targets) = count p l.
Proof. intros Hp. rewrite count_app, count_downloading_events by done. lia. Qed.

(** X9. Whenever the cool-down timer fires during a run, the queue is
    paused with at least one job waiting, so the resume does not find the
    queue idle. The timer callback, the resume together with the starts the
    queue makes in it, leaves the queue running with no timer behind, takes
    the jobs it starts from the head of the queue in order, and emits no
    [end]. *)
Theorem timer_callback_emits_no_end
    (cfg : Config.t) (listing : option (list string))
    (beatMapSets : list BeatMapSet) (acts : list Action) (st' : State) (k : nat) :
  step Timeout (run acts (session cfg listing beatMapSets)) = Some st' ->
  let st := run acts (session cfg listing beatMapSets) in
  let st'' := run (repeat StartNext k) st' in
  PQueue.isPaused (queue st) = true
  /\ waiting_targets st <> []
  /\ PQueue.isPaused (queue st'') = false
  /\ timers st'' = []
  /\ (exists j, j <= k /\ waiting_targets st'' = drop j (waiting_targets st))
  /\ count is_end (emitted st'') = count is_end (emitted st).
Proof.
  intros Hs st st''.
  assert (H : throttle_inv st /\ paused_inv st).
  { apply (run_invariant_all (fun s => throttle_inv s /\ paused_inv s)).
    - intros act s s' (Ht & Hp) Hs'. split.
      + by eapply throttle_inv_step.
      + by eapply paused_inv_step.
    - split; [apply throttle_inv_session | apply paused_inv_session]. }
  destruct (starts_take k st') as (j & Hj & Hsame & Hem & _ & _ & Hw).
  fold st'' in Hsame, Hem, Hw.
  destruct Hsame as (_ & _ & Hpa' & _ & Htm' & _).
  fold st in Hs. clearbody st st''. destruct H as (Ht & Hp).
  unfold throttle_inv in Ht. unfold paused_inv in Hp.
  simpl in Hs. destruct (timers st) as [|t rest] eqn:Htm; [discriminate|].
  destruct (PQueue.isPaused (queue st)) eqn:Hpa; [|discriminate].
  injection Ht as -> ->. specialize (Hp eq_refl).
  assert (Hst' : PQueue.isPaused (queue st') = false /\ timers st' = []
                 /\ emitted st' = emitted st /\ waiting_targets st' = waiting_targets st).
  { injection Hs as <-. unfold queue_start, idle_check, on_idle, emit, PQueue.is_idle,
      waiting_targets. simpl. rewrite Hpa. simpl.
    destruct (PQueue._queue (queue st)) as [|j0 q] eqn:Hq; [done|]. simpl.
    by rewrite Hq. }
  destruct Hst' as (Hpa1 & Htm1 & Hem1 & Hw1).
  rewrite Hpa', Htm', Hem, Hw, Hem1, Hw1.
  split; [done|]. split.
  { unfold waiting_targets. intros Hnil. by apply map_eq_nil in Hnil. }
  split; [done|]. split; [done|]. split; [by exists j|].
  by apply count_downloading_app.
Qed.

Lemma timer_callback_emits_no_end_witness :
  let acts := [StartNext; Settle 0 (status_response 429)] in
  let st := run acts (session Config.defaults None [{| id := 7 |}]) in
  match step Timeout st with
  | Some st' =>
      let st'' := run (repeat StartNext 1) st' in
      PQueue.isPaused (queue st) = true
      /\ waiting_targets st <> []
      /\ PQueue.isPaused (queue st'') = false
      /\ timers st'' = []
      /\ (exists j, j <= 1 /\ waiting_targets st'' = drop j (waiting_targets st))
      /\ count is_end (emitted st'') = count is_end (emitted st)
  | None => False
  end.
Proof.
  intros acts st.
  destruct (step Timeout st) as [st'|] eqn:Hs.
  - exact (timer_callback_emits_no_end Config.defaults None [{| id := 7 |}] acts st' 1 Hs).
  - revert Hs. vm_compute. discriminate.
Defined.

(** The timer callback at work: the job put back by the 429 is started in
    it. *)
Example timer_callback_starts_the_waiting_job :
  let b := {| id := 7 |} in
  let st := run [StartNext; Settle 0 (status_response 429); Timeout; StartNext]
              (session Config.defaults None [b]) in
  emitted st = [EvDownloading b; EvRateLimited; EvEnd []; EvDownloading b]
  /\ waiting_targets st = [] /\ running_targets st = [b].
Proof. vm_compute. repeat split. Qed.

(** *** Indexing twice *)

Lemma foldl_index_entry_index files : forall st,
  existingBeatmaps (foldl index_entry st files) = add_entries files (existingBeatmaps st).
Proof.
  induction files as [|file files IH]; intros st; simpl; [done|].
  rewrite IH. destruct (index_entry_fields st file) as (_ & _ & _ & ->). done.
Qed.

Lemma add_entries_keeps files : forall m k,
  m !! k = Some true -> add_entries files m !! k = Some true.
Proof.
  induction files as [|f files IH]; intros m k Hk; [done|].
  unfold add_entries in *. simpl. apply IH.
  destruct (JS.match_leading_digits f) as [tok|]; [|done].
  destruct (decide (tok = k)) as [->|Hne].
  - apply lookup_insert_eq.
  - by rewrite lookup_insert_ne.
Qed.

Lemma add_entries_lookup files : forall m file tok,
  file ∈ files -> JS.match_leading_digits file = Some tok ->
  add_entries files m !! tok = Some true.
Proof.
  induction files as [|f files IH]; intros m file tok Hin Htok.
  - by apply elem_of_nil in Hin.
  - apply elem_of_cons in Hin as [->|Hin].
    + unfold add_entries. simpl. rewrite Htok.
      apply (add_entries_keeps files). apply lookup_insert_eq.
    + unfold add_entries. simpl. by apply (IH _ file).
Qed.

Lemma add_entries_known files : forall m,
  (forall file tok, file ∈ files -> JS.match_leading_digits file = Some tok ->
                    m !! tok = Some true) ->
  add_entries files m = m.
Proof.
  induction files as [|f files IH]; intros m Hm; [done|].
  unfold add_entries in *. simpl.
  destruct (JS.match_leading_digits f) as [tok|] eqn:Ht.
  - rewrite insert_id by (apply (Hm f); [left|done]).
    apply IH. intros file t Hin. apply Hm. by right.
  - apply IH. intros file t Hin. apply Hm. by right.
Qed.

(** X10. Indexing the same listing a second time leaves the index and the
    total as the first pass made them, but [indexedSongs] is not reset: it
    keeps counting, so the second pass reports progress from
    [length files + 1] to [2 * length files] out of [length files]. *)
Theorem indexing_twice (st : State) (files : list string) :
  let st1 := _indexSongsFolder (Some files) st in
  let st2 := _indexSongsFolder (Some files) st1 in
  existingBeatmaps st2 = existingBeatmaps st1
  /\ totalSongs st2 = length files
  /\ indexedSongs st2 = indexedSongs st + 2 * length files
  /\ emitted st2 =
       emitted st1 ++
       map (fun k => EvIndexing (indexedSongs st + length files + k) (length files))
         (seq 1 (length files)).
Proof.
  simpl.
  set (s0 := upd_totalSongs (fun _ => length files) st).
  set (s1 := foldl index_entry s0 files).
  set (s1' := upd_totalSongs (fun _ => length files) s1).
  destruct (foldl_index_entry files s0) as (Ht1 & Hi1 & He1 & _).
  destruct (foldl_index_entry files s1') as (Ht2 & Hi2 & He2 & _).
  fold s1 in Ht1, Hi1, He1.
  rewrite (foldl_index_entry_index files s1'), Ht2, Hi2, He2. simpl.
  rewrite Hi1. simpl. split; [|repeat split; try done; lia].
  unfold s1. rewrite foldl_index_entry_index. apply add_entries_known.
  intros file tok. apply add_entries_lookup.
Qed.

(** *** An unreadable songs folder *)

Lemma bulkDownload_each_new st b :
  exists_in st b = false ->
  bulkDownload_each st b = upd_queue (PQueue.add (bulk_job b)) st.
Proof. unfold bulkDownload_each, exists_in. by intros ->. Qed.

Lemma foldl_bulkDownload_each_new l : forall st,
  existingBeatmaps st = ∅ ->
  let st' := foldl bulkDownload_each st l in
  emitted st' = emitted st
  /\ processedCount st' = processedCount st
  /\ downloadedBeatMapSetSize st' = downloadedBeatMapSetSize st
  /\ PQueue._queue (queue st') = PQueue._queue (queue st) ++ map bulk_job l.
Proof.
  induction l as [|b l IH]; intros st He; simpl.
  - by rewrite app_nil_r.
  - rewrite bulkDownload_each_new
      by (unfold exists_in, _isBeatmapExisting; rewrite He, lookup_empty;
          apply bool_decide_eq_false; by intros [? ?]).
    destruct (IH (upd_queue (PQueue.add (bulk_job b)) st) He) as (H1 & H2 & H3 & H4).
    rewrite H1, H2, H3, H4. simpl. by rewrite <- app_assoc.
Qed.

(** X11. When the songs folder cannot be read the index stays empty and
    nothing is ever skipped. [bulkDownload], with the jobs the queue starts
    while it runs, hands every beatmap set of the collection to the queue in
    order: the first ones are started and the others wait, in collection
    order; no [skipped], [downloaded] or [end] event is emitted and nothing
    is counted as processed or downloaded. *)
Theorem unreadable_folder_downloads_everything
    (cfg : Config.t) (beatMapSets : list BeatMapSet) (k : nat) (acts : list Action) :
  let st := run (repeat StartNext k) (session cfg None beatMapSets) in
  existingBeatmaps st = ∅
  /\ (exists j, j <= k
        /\ running_targets st = take j beatMapSets
        /\ waiting_targets st = drop j beatMapSets)
  /\ count is_skipped (emitted st) = 0
  /\ count is_downloaded (emitted st) = 0
  /\ count is_end (emitted st) = 0
  /\ processedCount st = 0
  /\ getDownloadedBeatMapSetSize st = 0
  /\ totalCount st = length beatMapSets
  /\ skipped_targets (emitted (run acts (session cfg None beatMapSets))) = [].
Proof.
  intros st.
  assert (H0 : let st0 := session cfg None beatMapSets in
               existingBeatmaps st0 = ∅ /\ emitted st0 = []
               /\ waiting_targets st0 = beatMapSets /\ processedCount st0 = 0
               /\ downloadedBeatMapSetSize st0 = 0 /\ totalCount st0 = length beatMapSets
               /\ running st0 = []).
  { unfold session, setSongsDirectory, bulkDownload, waiting_targets. simpl.
    match goal with
    | |- context [foldl bulkDownload_each ?s beatMapSets] =>
        destruct (foldl_bulkDownload_each_new beatMapSets s eq_refl) as (H1 & H2 & H3 & H4);
        destruct (foldl_bulkDownload_each beatMapSets s)
          as ((_ & He & Hr & _ & _ & _ & _ & _ & Ht & _) & _)
    end.
    rewrite H1, H2, H3, H4, He, Ht, Hr. simpl. rewrite map_map. simpl.
    by rewrite map_id. }
  destruct H0 as (He0 & Hem0 & Hw0 & Hp0 & Hd0 & Ht0 & Hr0).
  destruct (starts_take k (session cfg None beatMapSets))
    as (j & Hj & (_ & He & _ & _ & _ & _ & Hp & Ht & Hd & _) & Hem & _ & Hr & Hw).
  fold st in He, Hp, Ht, Hd, Hem, Hr, Hw.
  unfold getDownloadedBeatMapSetSize.
  rewrite He, Hp, Ht, Hd, He0, Hp0, Ht0, Hd0, Hem, Hem0, Hw0.
  split; [done|]. split.
  - exists j. rewrite Hr, Hw, Hw0. unfold running_targets. rewrite Hr0. by repeat split.
  - rewrite !(count_downloading_app _ []) by done.
    repeat split; try done.
    rewrite skipped_targets_run. unfold skipped_targets. by rewrite Hem0.
Qed.

(** *** The file name token *)

Lemma take_until_semicolon_split s :
  exists post,
    s = JS.take_until_semicolon s +:+ post
    /\ (post = EmptyString \/ exists rest, post = String ";" rest)
    /\ lacks ";" (JS.take_until_semicolon s).
Proof.
  induction s as [|c s (post & Hs & Hpost & Hno)]; simpl.
  - exists EmptyString. repeat split; eauto. by intros [].
  - destruct (Ascii.eqb_spec c ";") as [->|Hc].
    + exists (String ";" s). repeat split; eauto. by intros [].
    + exists post. split; [exact (f_equal (String c) Hs)|]. split; [done|].
      intros [->|Hin]; [done|]. by apply Hno.
Qed.

Lemma strip_prefix_Some p : forall s rest,
  JS.strip_prefix p s = Some rest -> s = p +:+ rest.
Proof.
  induction p as [|a p IH]; intros s rest; simpl.
  - by intros [= ->].
  - destruct s as [|b s]; [discriminate|].
    destruct (Ascii.eqb_spec a b) as [->|]; [|discriminate].
    intros H. by rewrite (IH _ _ H).
Qed.

Lemma strip_prefix_app p : forall rest, JS.strip_prefix p (p +:+ rest) = Some rest.
Proof.
  induction p as [|a p IH]; intros rest; simpl; [done|]. by rewrite Ascii.eqb_refl.
Qed.

Lemma take_until_semicolon_nonempty c rest :
  c <> ";"%char -> JS.take_until_semicolon (String c rest) <> EmptyString.
Proof.
  intros Hc. simpl. by destruct (Ascii.eqb_spec c ";").
Qed.

Lemma exec_filename_eq s :
  JS.exec_filename s =
  let later :=
    match s with
    | String _ rest => JS.exec_filename rest
    | EmptyString => None
    end in
  match JS.strip_prefix "filename=" s with
  | Some rest =>
      match JS.take_until_semicolon rest with
      | EmptyString => later
      | tok => Some tok
      end
  | None => later
  end.
Proof. by destruct s. Qed.

Lemma exec_filename_complete cd pre c rest :
  c <> ";"%char -> cd = pre +:+ "filename=" +:+ String c rest ->
  is_Some (JS.exec_filename cd).
Proof.
  intros Hc ->.
  induction pre as [|a pre IH].
  - change (EmptyString +:+ "filename=" +:+ String c rest)
      with ("filename=" +:+ String c rest).
    rewrite exec_filename_eq, strip_prefix_app.
    pose proof (take_until_semicolon_nonempty c rest Hc) as Hne.
    destruct (JS.take_until_semicolon (String c rest)); [done|eauto].
  - change (String a pre +:+ "filename=" +:+ String c rest)
      with (String a (pre +:+ "filename=" +:+ String c rest)).
    rewrite exec_filename_eq.
    destruct IH as [tok Htok]. rewrite Htok.
    destruct (JS.strip_prefix _ _); [|eauto].
    destruct (JS.take_until_semicolon _); eauto.
Qed.

Lemma exec_filename_sound cd : forall tok,
  JS.exec_filename cd = Some tok ->
  tok <> EmptyString
  /\ lacks ";" tok
  /\ exists pre post,
       cd = pre +:+ "filename=" +:+ tok +:+ post
       /\ (post = EmptyString \/ exists rest, post = String ";" rest).
Proof.
  induction cd as [|a cd IH]; intros tok Htok.
  - discriminate.
  - cbn [JS.exec_filename] in Htok.
    assert (Hlater : JS.exec_filename cd = Some tok ->
              tok <> EmptyString /\ lacks ";" tok
              /\ exists pre post,
                   String a cd = pre +:+ "filename=" +:+ tok +:+ post
                   /\ (post = EmptyString \/ exists rest, post = String ";" rest)).
    { intros H. destruct (IH _ H) as (H1 & H2 & pre & post & -> & H3).
      repeat split; try done. by exists (String a pre), post. }
    destruct (JS.strip_prefix "filename=" (String a cd)) as [r|] eqn:Hp; [|auto].
    apply strip_prefix_Some in Hp.
    destruct (take_until_semicolon_split r) as (post & Hr & Hpost & Hno).
    destruct (JS.take_until_semicolon r) as [|c t] eqn:Ht; [auto|].
    injection Htok as <-. repeat split; try done.
    exists EmptyString, post. split; [|done].
    rewrite Hp. simpl. by rewrite Hr at 1.
Qed.

(** X12. The pattern [/filename=([^;]+)/] finds a token exactly when the
    header holds [filename=] followed by a character other than [;]. The
    token is not empty, holds no [;], stands right after a [filename=] and
    runs to the next [;] or to the end of the header. *)
Theorem filename_token (cd : string) :
  (is_Some (JS.exec_filename cd) <->
   exists pre c rest, c <> ";"%char /\ cd = pre +:+ "filename=" +:+ String c rest)
  /\ (forall tok,
        JS.exec_filename cd = Some tok ->
        tok <> EmptyString
        /\ lacks ";" tok
        /\ exists pre post,
             cd = pre +:+ "filename=" +:+ tok +:+ post
             /\ (post = EmptyString \/ exists rest, post = String ";" rest)).
Proof.
  split; [split|apply exec_filename_sound].
  - intros [tok Htok].
    destruct (exec_filename_sound cd tok Htok) as (Hne & _ & pre & post & -> & _).
    destruct tok as [|c t]; [done|].
    destruct (Ascii.eqb_spec c ";") as [->|Hc].
    + destruct (exec_filename_sound _ _ Htok) as (_ & Hno & _).
      exfalso. apply Hno. by left.
    + exists pre, c, (t +:+ post). done.
  - intros (pre & c & rest & Hc & Hcd). by eapply exec_filename_complete.
Qed.

Lemma filename_token_witness :
  JS.exec_filename "attachment; filename=a b.osz; size=3" = Some "a b.osz"
  /\ "a b.osz" <> EmptyString
  /\ lacks ";" "a b.osz".
Proof.
  split; [reflexivity|].
  destruct (proj2 (filename_token "attachment; filename=a b.osz; size=3")
              "a b.osz" eq_refl) as (H1 & H2 & _).
  exact (conj H1 H2).
Defined.

(** *** Percent escapes in the file name *)

Lemma list_ascii_of_string_app a b :
  list_ascii_of_string (a +:+ b) = list_ascii_of_string a ++ list_ascii_of_string b.
Proof. induction a as [|c a IH]; simpl; [done|]. by rewrite IH. Qed.

Lemma lacks_app c a b : lacks c (a +:+ b) <-> lacks c a /\ lacks c b.
Proof.
  unfold lacks. rewrite list_ascii_of_string_app, in_app_iff. tauto.
Qed.

Lemma decode_no_percent s : lacks "%" s -> JS.decodeURIComponent s = Some s.
Proof.
  unfold JS.decodeURIComponent, lacks. induction s as [|c s IH]; [done|].
  intros Hno. cbn [JS.decode].
  destruct (Ascii.eqb_spec c "%") as [->|Hc].
  - exfalso. apply Hno. by left.
  - rewrite IH; [done|]. intros Hin. apply Hno. by right.
Qed.

(** X13. A content-disposition header without a percent sign never makes
    [_getFilename] throw: the result is the sanitised token when the header
    has one and the default name otherwise. *)
Theorem getFilename_without_escapes
    (sanitize : string -> string) (response : Response) (cd : string) :
  contentDisposition response = Some cd ->
  lacks "%" cd ->
  _getFilename sanitize response =
  inr (match JS.exec_filename cd with
       | Some tok => sanitize tok
       | None => "Untitled.osz"
       end).
Proof.
  intros Hcd Hno. unfold _getFilename. rewrite Hcd.
  destruct cd as [|c cd]; [done|].
  destruct (JS.exec_filename (String c cd)) as [tok|] eqn:Htok; [|done].
  destruct (exec_filename_sound _ _ Htok) as (_ & _ & pre & post & Heq & _).
  rewrite Heq in Hno.
  apply lacks_app in Hno as [_ Hno]. apply lacks_app in Hno as [_ Hno].
  apply lacks_app in Hno as [Hno _].
  by rewrite decode_no_percent.
Qed.

Lemma getFilename_without_escapes_witness :
  _getFilename Util.replaceForbiddenChars
    (ok_response (Some "attachment; filename=a b.osz; size=3")) = inr "ab.osz".
Proof.
  refine (getFilename_without_escapes Util.replaceForbiddenChars
            (ok_response (Some "attachment; filename=a b.osz; size=3"))
            "attachment; filename=a b.osz; size=3" eq_refl _).
  unfold lacks. simpl. intros H.
  repeat (destruct H as [H|H]; [discriminate H|]). exact H.
Defined.

Lemma take_until_semicolon_all s : lacks ";" s -> JS.take_until_semicolon s = s.
Proof.
  unfold lacks. induction s as [|c s IH]; [done|]. intros Hno. simpl.
  destruct (Ascii.eqb_spec c ";") as [->|Hc].
  - exfalso. apply Hno. by left.
  - rewrite IH; [done|]. intros Hin. apply Hno. by right.
Qed.

Lemma decode_pct_char c rest :
  (N_of_ascii c < 128)%N ->
  JS.decode O []
    (String "%" (String (hex_digit (N_of_ascii c / 16))
                   (String (hex_digit (N_of_ascii c mod 16)) rest))) =
  String c <$> JS.decode O [] rest.
Proof.
  destruct c as [b0 b1 b2 b3 b4 b5 b6 [|]].
  - destruct b0, b1, b2, b3, b4, b5, b6; intros H; vm_compute in H; discriminate.
  - intros _. destruct b0, b1, b2, b3, b4, b5, b6; reflexivity.
Qed.

Lemma decode_pct s : forall rest,
  is_ascii s ->
  JS.decode O [] (pct_encode s +:+ rest) = String.append s <$> JS.decode O [] rest.
Proof.
  unfold is_ascii. induction s as [|c s IH]; intros rest Hs.
  - change (pct_encode EmptyString +:+ rest) with rest.
    destruct (JS.decode O [] rest); reflexivity.
  - apply Forall_cons in Hs as [Hc Hs].
    change (pct_encode (String c s) +:+ rest)
      with (String "%" (String (hex_digit (N_of_ascii c / 16))
                          (String (hex_digit (N_of_ascii c mod 16))
                             (pct_encode s +:+ rest)))).
    rewrite decode_pct_char by done. rewrite IH by done.
    destruct (JS.decode O [] rest); reflexivity.
Qed.

Lemma hex_value_hex_digit n : is_Some (JS.hex_value (hex_digit n)).
Proof.
  unfold hex_digit. generalize (N.to_nat n). intros k.
  do 16 (destruct k as [|k]; [eexists; vm_compute; reflexivity|]).
  destruct k; eexists; vm_compute; reflexivity.
Qed.

Lemma pct_encode_lacks c s :
  c <> "%"%char -> JS.hex_value c = None -> lacks c (pct_encode s).
Proof.
  intros Hc Hhex. unfold lacks. induction s as [|a s IH]; simpl; [tauto|].
  intros [H|[H|[H|H]]]; [congruence| | |by apply IH]; subst c.
  - destruct (hex_value_hex_digit (N_of_ascii a / 16)) as [? ?]. congruence.
  - destruct (hex_value_hex_digit (N_of_ascii a mod 16)) as [? ?]. congruence.
Qed.

Lemma exec_filename_attachment X c :
  c <> ";"%char -> lacks ";" X ->
  JS.exec_filename ("attachment; filename=" +:+ String c X) = Some (String c X).
Proof.
  intros Hc HX. cbv -[JS.take_until_semicolon].
  rewrite (take_until_semicolon_all (String c X)); [done|].
  unfold lacks in *. simpl. intros [?|?]; [congruence|done].
Qed.

Lemma lacks_quoted c s :
  c <> "034"%char -> lacks c s -> lacks c (s +:+ String "034" EmptyString).
Proof.
  intros Hc Hs. apply lacks_app. split; [done|].
  unfold lacks. simpl. intros [?|[]]. congruence.
Qed.

(** X14. A file name sent with every character percent-escaped reaches the
    sanitiser decoded: for an ASCII name, the header
    attachment; filename= followed by the quoted, escaped name resolves to
    the sanitiser applied to the quoted name, so no escaped character gets
    past it. *)
Theorem getFilename_decodes_before_sanitising (sanitize : string -> string) (name : string) :
  is_ascii name ->
  _getFilename sanitize
    (ok_response (Some ("attachment; filename=" +:+ quoted (pct_encode name))))
  = inr (sanitize (quoted name)).
Proof.
  intros Hname. unfold _getFilename, ok_response, quoted.
  cbn [contentDisposition].
  change ("attachment; filename=" +:+ ?x) with (String "a" ("ttachment; filename=" +:+ x)).
  cbv beta iota.
  change (String "a" ("ttachment; filename=" +:+ ?x)) with ("attachment; filename=" +:+ x).
  rewrite exec_filename_attachment.
  - unfold JS.decodeURIComponent. cbn [JS.decode Ascii.eqb Bool.eqb]. cbv beta iota.
    rewrite decode_pct by done. reflexivity.
  - discriminate.
  - apply lacks_quoted; [discriminate|]. apply pct_encode_lacks; [discriminate|reflexivity].
Qed.

Lemma getFilename_decodes_before_sanitising_witness :
  _getFilename Util.replaceForbiddenChars
    (ok_response (Some ("attachment; filename=" +:+ quoted "%2E%2E%2F%61")))
  = inr "..a".
Proof.
  refine (getFilename_decodes_before_sanitising Util.replaceForbiddenChars "../a" _).
  unfold is_ascii. simpl. repeat constructor.
Defined.

(** ** The earlier download manager *)

Lemma legacy_line_of_all s :
  lacks "010" s -> lacks "013" s -> Legacy.line_of s = s.
Proof.
  unfold lacks. induction s as [|c s IH]; [done|]. intros H10 H13. simpl.
  unfold Legacy.is_line_terminator.
  destruct (Ascii.eqb_spec c "010") as [->|_]; [exfalso; apply H10; by left|].
  destruct (Ascii.eqb_spec c "013") as [->|_]; [exfalso; apply H13; by left|].
  simpl. rewrite IH; [done| |]; intros Hin; [apply H10|apply H13]; by right.
Qed.

Lemma legacy_capture_none s : lacks "034" s -> Legacy.capture s = None.
Proof.
  unfold lacks. induction s as [|c s IH]; [done|]. intros Hno. simpl.
  rewrite IH by (intros Hin; apply Hno; by right).
  destruct s as [|q s]; [done|].
  destruct (Ascii.eqb_spec q "034") as [->|_]; [|done].
  exfalso. apply Hno. right. by left.
Qed.

Lemma legacy_capture_quoted u :
  u <> EmptyString -> lacks "034" u ->
  Legacy.capture (u +:+ String "034" EmptyString) = Some u.
Proof.
  unfold lacks. induction u as [|c u IH]; [done|]. intros _ Hno.
  destruct u as [|c' u].
  - reflexivity.
  - change (Legacy.capture (String c (String c' u +:+ String "034" EmptyString)) =
            Some (String c (String c' u))).
    cbn [Legacy.capture]. rewrite IH; [done|done|].
    intros Hin. apply Hno. by right.
Qed.

Lemma legacy_exec_filename_attachment Y u :
  Legacy.capture (Legacy.line_of Y) = Some u ->
  Legacy.exec_filename ("attachment; filename=" +:+ String "034" Y) = Some u.
Proof.
  intros H. cbv -[Legacy.capture Legacy.line_of]. by rewrite H.
Qed.

Lemma legacy_is_forbidden_hex_digit n : Legacy.is_forbidden (hex_digit n) = false.
Proof.
  unfold hex_digit. generalize (N.to_nat n). intros k.
  do 16 (destruct k as [|k]; [reflexivity|]). by destruct k.
Qed.

Lemma legacy_strip_pct s : Legacy.strip_forbidden (pct_encode s) = pct_encode s.
Proof.
  induction s as [|c s IH]; [done|].
  cbn [pct_encode Legacy.strip_forbidden].
  rewrite !legacy_is_forbidden_hex_digit, IH. reflexivity.
Qed.

Lemma append_empty_r s : s +:+ EmptyString = s.
Proof. induction s as [|c s IH]; [done|]. exact (f_equal (String c) IH). Qed.

Lemma pct_encode_nonempty s : s <> EmptyString -> pct_encode s <> EmptyString.
Proof. by destruct s. Qed.

(** X15. The earlier [getFilename] strips the forbidden characters before
    it decodes the percent escapes, so an escaped name comes back as it is,
    whatever characters it holds: for a non-empty ASCII name, a
    content-disposition header (the name in any letter case) with
    attachment; filename= and the quoted, escaped name resolves to the name
    itself. *)
Theorem legacy_getFilename_returns_escaped_name (key name : string) :
  Legacy.toLowerCase key = "content-disposition" ->
  name <> EmptyString ->
  is_ascii name ->
  Legacy.getFilename
    [(key, "attachment; filename=" +:+ quoted (pct_encode name))] = Some name.
Proof.
  intros Hkey Hne Hname.
  unfold Legacy.getFilename, Legacy.contentDispositionHeader, quoted.
  cbn [List.find fst snd]. rewrite Hkey. cbn [String.eqb Ascii.eqb Bool.eqb].
  cbv beta iota. cbn [snd].
  assert (Hq : lacks "034" (pct_encode name))
    by (apply pct_encode_lacks; [discriminate|reflexivity]).
  rewrite (legacy_exec_filename_attachment _ (pct_encode name)).
  - rewrite legacy_strip_pct. unfold JS.decodeURIComponent.
    rewrite <- (append_empty_r (pct_encode name)), decode_pct by done.
    simpl. by rewrite append_empty_r.
  - rewrite legacy_line_of_all.
    + apply legacy_capture_quoted; [by apply pct_encode_nonempty|done].
    + apply lacks_quoted; [discriminate|].
      apply pct_encode_lacks; [discriminate|reflexivity].
    + apply lacks_quoted; [discriminate|].
      apply pct_encode_lacks; [discriminate|reflexivity].
Qed.

Lemma legacy_getFilename_returns_escaped_name_witness :
  Legacy.getFilename
    [("Content-Disposition", "attachment; filename=" +:+ quoted "%2E%2E%2F%61")]
  = Some "../a".
Proof.
  refine (legacy_getFilename_returns_escaped_name "Content-Disposition" "../a"
            eq_refl _ _).
  - discriminate.
  - unfold is_ascii. simpl. repeat constructor.
Defined.

(** *** How many fetches, how much progress *)

Lemma length_targets l :
  length (downloaded_targets l) = count is_downloaded l
  /\ length (skipped_targets l) = count is_skipped l.
Proof.
  unfold downloaded_targets, skipped_targets, count.
  induction l as [|e l [IH1 IH2]]; [done|].
  destruct e; simpl; split;
    first [exact IH1 | exact IH2 | exact (f_equal S IH1) | exact (f_equal S IH2)].
Qed.

(** C9. [getDownloadedBeatMapSetSize] reads one counter, and it is
    incremented at two places: [bulkDownload] adds one for a beatmap set
    whose id is indexed, with its [skipped] event, and [_downloadFile] adds
    one when a download succeeds, with its [downloaded] event. At any point
    of any run its value is the number of [downloaded] events plus the
    number of [skipped] events; the skipped beatmap sets are the indexed
    ones of the collection, so the counter exceeds the number of downloads
    as soon as one beatmap set of the collection is indexed. *)
Theorem downloaded_counter_counts_skips
    (cfg : Config.t) (listing : option (list string))
    (beatMapSets : list BeatMapSet) (acts : list Action) :
  let st0 := setSongsDirectory "Songs" listing (new_DownloadManager cfg) in
  let st := run acts (session cfg listing beatMapSets) in
  (forall s b,
     _isBeatmapExisting (id b) s = true ->
     let s' := bulkDownload_each s b in
     getDownloadedBeatMapSetSize s' = S (getDownloadedBeatMapSetSize s)
     /\ skipped_targets (emitted s') = skipped_targets (emitted s) ++ [b]
     /\ downloaded_targets (emitted s') = downloaded_targets (emitted s))
  /\ (forall a response name chunks s,
        status response = 200%N ->
        _getFilename Util.replaceForbiddenChars response = inr name ->
        body response = Some (Readable chunks) ->
        exists s',
          _downloadFile_settle a (Resolved response) s = (s', None)
          /\ getDownloadedBeatMapSetSize s' = S (getDownloadedBeatMapSetSize s)
          /\ downloaded_targets (emitted s') =
               downloaded_targets (emitted s) ++ [beatMapSet a]
          /\ skipped_targets (emitted s') = skipped_targets (emitted s))
  /\ getDownloadedBeatMapSetSize st =
       count is_downloaded (emitted st) + count is_skipped (emitted st)
  /\ skipped_targets (emitted st) = List.filter (exists_in st0) beatMapSets
  /\ getDownloadedBeatMapSetSize st =
       count is_downloaded (emitted st) + length (List.filter (exists_in st0) beatMapSets)
  /\ ((exists b, In b beatMapSets /\ _isBeatmapExisting (id b) st0 = true) ->
      count is_downloaded (emitted st) < getDownloadedBeatMapSetSize st).
Proof.
  intros st0 st.
  assert (Hc : counter_inv st).
  { apply (run_invariant_all counter_inv).
    - intros act s s'. apply counter_inv_step.
    - apply counter_inv_session. }
  assert (Hsk : skipped_targets (emitted st) = List.filter (exists_in st0) beatMapSets).
  { subst st st0. rewrite skipped_targets_run. apply skipped_targets_session. }
  assert (Hn : count is_skipped (emitted st) = length (List.filter (exists_in st0) beatMapSets)).
  { rewrite <- Hsk. symmetry. apply length_targets. }
  unfold counter_inv in Hc. unfold getDownloadedBeatMapSetSize.
  split; [|split; [|split; [exact Hc|split; [exact Hsk|split; [lia|]]]]].
  - intros s b Hb. unfold bulkDownload_each. rewrite Hb. unfold emit.
    case_match; simpl;
      rewrite ?downloaded_targets_snoc, ?skipped_targets_snoc, ?app_nil_r; simpl;
      rewrite ?app_nil_r; done.
  - intros a response name chunks s H200 Hname Hbody.
    unfold _downloadFile_settle, _downloadFile_try. rewrite H200, Hname, Hbody. simpl.
    eexists. split; [reflexivity|]. unfold emit.
    destruct (testRequest s); simpl;
      by rewrite downloaded_targets_snoc, skipped_targets_snoc, app_nil_r.
  - intros (b & Hin & Hb). rewrite Hc, Hn.
    assert (In b (List.filter (exists_in st0) beatMapSets)) as Hf
      by (apply List.filter_In; by split).
    destruct (List.filter (exists_in st0) beatMapSets); [done|]. simpl. lia.
Qed.

Lemma downloaded_counter_counts_skips_witness :
  let st := run [StartNext; Settle 0 (Resolved (ok_response None))]
              (session Config.defaults (Some ["8 Artist - Title"])
                 [{| id := 7 |}; {| id := 8 |}]) in
  count is_downloaded (emitted st) < getDownloadedBeatMapSetSize st.
Proof.
  exact (proj2 (proj2 (proj2 (proj2 (proj2
           (downloaded_counter_counts_skips Config.defaults (Some ["8 Artist - Title"])
              [{| id := 7 |}; {| id := 8 |}]
              [StartNext; Settle 0 (Resolved (ok_response None))])))))
           (ex_intro _ {| id := 8 |} (conj (or_intror (or_introl eq_refl)) eq_refl))).
Defined.

(** X18. The downloaded counter never exceeds the size of the collection,
    at any point of any run. *)
Theorem downloaded_counter_is_bounded
    (cfg : Config.t) (listing : option (list string))
    (beatMapSets : list BeatMapSet) (acts : list Action) :
  getDownloadedBeatMapSetSize (run acts (session cfg listing beatMapSets))
  <= length beatMapSets.
Proof.
  assert (Hc : counter_inv (run acts (session cfg listing beatMapSets))).
  { apply (run_invariant_all counter_inv).
    - intros act st st'. apply counter_inv_step.
    - apply counter_inv_session. }
  destruct (ledger_inv_run cfg listing beatMapSets acts) as (_ & Hperm & _).
  apply Permutation_length in Hperm. rewrite !length_app in Hperm.
  destruct (length_targets (emitted (run acts (session cfg listing beatMapSets))))
    as [H1 H2].
  unfold getDownloadedBeatMapSetSize. unfold counter_inv in Hc. lia.
Qed.

Lemma sum_retries_lookup (l : list Running) i r :
  l !! i = Some r ->
  sum_list_with (fun r => retries (attempt r)) l =
  retries (attempt r) + sum_list_with (fun r => retries (attempt r)) (delete i l).
Proof.
  revert i. induction l as [|x l IH]; intros [|i] Hi; try done; simpl in *.
  - by injection Hi as ->.
  - rewrite (IH i Hi). lia.
Qed.

Lemma sum_retries_insert (l : list Running) i r r' :
  l !! i = Some r ->
  sum_list_with (fun r => retries (attempt r)) (<[i:=r']> l) + retries (attempt r) =
  sum_list_with (fun r => retries (attempt r)) l + retries (attempt r').
Proof.
  revert i. induction l as [|x l IH]; intros [|i] Hi; try done; simpl in *.
  - injection Hi as ->. lia.
  - pose proof (IH i Hi). lia.
Qed.

Lemma fetch_budget_step act st st' :
  not_rate_limited act = true -> step act st = Some st' ->
  fetch_budget st' <= fetch_budget st.
Proof.
  intros Hok Hs. unfold fetch_budget. destruct act as [|i o|].
  - unfold step, PQueue.dequeue in Hs.
    destruct (PQueue.can_start (queue st)); [|discriminate].
    destruct (PQueue._queue (queue st)) as [|j rest] eqn:Hqueue; [discriminate|].
    injection Hs as <-. unfold _downloadFile_begin, emit, default_options. simpl.
    rewrite !length_app, sum_list_with_app. simpl. lia.
  - unfold step in Hs.
    destruct (running st !! i) as [r|] eqn:Hi; [|discriminate].
    destruct (_downloadFile_settle (attempt r) o st) as [st1 next] eqn:Hset.
    pose proof (settle_effect _ _ _ _ _ Hok Hset) as (Eq' & _).
    apply settle_cases in Hset as ((_ & _ & Er & _) & Hcase).
    pose proof (sum_retries_lookup _ _ _ Hi) as Hsum.
    destruct Hcase as [(-> & Eq & _ & _ & Erq)
                      |[(-> & Eq & _ & _ & Erq)
                      |[(n & Hn & -> & Eq & _ & _ & Erq)
                       |(e & _ & -> & Eq & _ & _ & Erq)]]];
      injection Hs as <-.
    + rewrite Eq' in Eq. apply (f_equal length) in Eq. rewrite length_app in Eq.
      simpl in Eq. lia.
    + destruct (job_done_fields (wrapper (job r))
                  (upd_running (fun l => delete i l) st1))
        as (Fq & _ & _ & _ & Fr & _).
      destruct (job_done_frame (wrapper (job r))
                  (upd_running (fun l => delete i l) st1))
        as (_ & _ & _ & _ & Frq & _).
      rewrite Fq, Fr, Frq. simpl. rewrite Eq, Er, Erq. lia.
    + simpl. rewrite Eq, Er, Erq, length_app. simpl.
      pose proof (sum_retries_insert (running st) i r
                    {| job := job r;
                       attempt := {| beatMapSet := beatMapSet (attempt r);
                                     retries := n; alt := (n =? 0)%nat |} |} Hi) as Hins.
      simpl in Hins. lia.
    + destruct (job_done_fields (wrapper (job r))
                  (upd_running (fun l => delete i l) st1))
        as (Fq & _ & _ & _ & Fr & _).
      destruct (job_done_frame (wrapper (job r))
                  (upd_running (fun l => delete i l) st1))
        as (_ & _ & _ & _ & Frq & _).
      rewrite Fq, Fr, Frq. simpl. rewrite Eq, Er, Erq. lia.
  - simpl in Hs. destruct (timers st) as [|t rest]; [discriminate|].
    injection Hs as <-. unfold queue_start, idle_check, on_idle, emit.
    repeat case_match; simpl; lia.
Qed.

(** X19. In a run in which no fetch is answered with 429, at most four
    fetches are made for each beatmap set that was not skipped: the number
    of fetches is at most four times the number of beatmap sets that
    [bulkDownload] queued. *)
Theorem at_most_four_fetches_each
    (cfg : Config.t) (listing : option (list string))
    (beatMapSets : list BeatMapSet) (acts : list Action) :
  no_rate_limit acts = true ->
  let st := run acts (session cfg listing beatMapSets) in
  length (requested st) <= 4 * (length beatMapSets - count is_skipped (emitted st)).
Proof.
  intros Hok st.
  set (st0 := session cfg listing beatMapSets).
  assert (H : fetch_budget st <= fetch_budget st0
              /\ count is_skipped (emitted st) = count is_skipped (emitted st0)).
  { apply (run_invariant not_rate_limited
             (fun s => fetch_budget s <= fetch_budget st0
                       /\ count is_skipped (emitted s) = count is_skipped (emitted st0)));
      [|done|done].
    intros act s s' Hact (Hb & Hsk) Hs. split.
    - pose proof (fetch_budget_step act s s' Hact Hs). lia.
    - rewrite <- Hsk. clear Hb Hsk. destruct act as [|i o|]; unfold_ops;
        unfold PQueue.dequeue in *; split_cases; count_events. }
  destruct H as (Hb & Hsk).
  destruct (ledger_inv_session cfg listing beatMapSets) as (Hrun0 & Hperm & _).
  fold st0 in Hrun0, Hperm.
  destruct (indexed_manager cfg "Songs" listing) as (_ & _ & Hr0 & Hrq0 & _).
  destruct (bulkDownload_splits_collection_aux
              (setSongsDirectory "Songs" listing (new_DownloadManager cfg)) beatMapSets)
    as (_ & Hr & Hrq & _).
  fold (session cfg listing beatMapSets) in Hr, Hrq. fold st0 in Hr, Hrq.
  apply Permutation_length in Hperm.
  unfold waiting_targets, running_targets in Hperm.
  rewrite !length_app, !length_map, Hr, Hr0 in Hperm.
  destruct (length_targets (emitted st0)) as [H1 H2]. rewrite H2 in Hperm.
  unfold fetch_budget in Hb. rewrite Hrq, Hrq0, Hr, Hr0 in Hb. simpl in Hb.
  rewrite Hsk. lia.
Qed.

Lemma at_most_four_fetches_each_witness :
  let st := run [StartNext; Settle 0 (status_response 500); Settle 0 (status_response 500);
                 Settle 0 (status_response 500); Settle 0 (status_response 500)]
              (session Config.defaults (Some ["8 Artist - Title"])
                 [{| id := 7 |}; {| id := 8 |}]) in
  length (requested st) <= 4 * (2 - count is_skipped (emitted st)).
Proof.
  exact (at_most_four_fetches_each Config.defaults (Some ["8 Artist - Title"])
           [{| id := 7 |}; {| id := 8 |}]
           [StartNext; Settle 0 (status_response 500); Settle 0 (status_response 500);
            Settle 0 (status_response 500); Settle 0 (status_response 500)] eq_refl).
Defined.

Lemma existsb_app_false {A} (p : A -> bool) l1 l2 :
  existsb p (l1 ++ l2) = false <-> existsb p l1 = false /\ existsb p l2 = false.
Proof. rewrite existsb_app. apply orb_false_iff. Qed.

Lemma impulse_from_batches {A} (rejects : A -> bool) (ids : list A) (rate : nat) :
  1 <= rate ->
  forall fuel i,
    length ids - i * rate <= fuel ->
    exists batches ok rest,
      Legacy.impulse_from rejects fuel ids rate i = Some (batches, ok)
      /\ drop (i * rate) ids = concat batches ++ rest
      /\ Forall (fun b => 1 <= length b <= rate) batches
      /\ (forall k b, batches !! k = Some b -> S k < length batches -> length b = rate)
      /\ (if ok then rest = [] /\ existsb rejects (concat batches) = false
          else exists before b,
                 batches = before ++ [b]
                 /\ existsb rejects b = true
                 /\ existsb rejects (concat before) = false).
Proof.
  intros Hrate. induction fuel as [|fuel IH]; intros i Hfuel; cbn [Legacy.impulse_from].
  - destruct (Nat.ltb_spec (i * rate) (length ids)) as [Hlt|Hge]; [lia|].
    exists [], true, []. rewrite drop_ge by lia. repeat split; try done.
  - destruct (Nat.ltb_spec (i * rate) (length ids)) as [Hlt|Hge].
    + unfold Legacy.slice.
      replace ((i + 1) * rate - i * rate) with rate by lia.
      set (b := take rate (drop (i * rate) ids)).
      assert (Hb : 1 <= length b <= rate).
      { unfold b. rewrite length_take, length_drop. lia. }
      assert (Hsplit : drop (i * rate) ids = b ++ drop (S i * rate) ids).
      { unfold b. replace (S i * rate) with (i * rate + rate) by lia.
        rewrite <- drop_drop. by rewrite take_drop. }
      destruct (existsb rejects b) eqn:Hrej.
      * exists [b], false, (drop (S i * rate) ids). cbn [concat]. rewrite app_nil_r.
        repeat split; try done.
        -- apply Forall_singleton. lia.
        -- intros k b' _ Hk. simpl in Hk. lia.
        -- exists [], b. done.
      * destruct (IH (S i)) as (bs & ok & rest & -> & Hdrop & Hsz & Hfull & Hok); [lia|].
        exists (b :: bs), ok, rest. cbn [concat]. rewrite <- app_assoc, <- Hdrop.
        repeat split; try done.
        -- apply Forall_cons. split; [lia|done].
        -- intros k b' Hk Hlen. destruct k as [|k].
           ++ injection Hk as <-. simpl in Hlen.
              destruct bs as [|b2 bs]; [simpl in Hlen; lia|].
              apply Forall_cons in Hsz as [Hb2 _].
              assert (length (drop (S i * rate) ids) >= 1).
              { rewrite Hdrop. simpl. rewrite !length_app. lia. }
              rewrite length_drop in H.
              unfold b. rewrite length_take, length_drop. lia.
           ++ simpl in Hk, Hlen. apply (Hfull k); [done|lia].
        -- destruct ok.
           ++ destruct Hok as [-> Hno]. split; [done|].
              apply existsb_app_false. done.
           ++ destruct Hok as (before & b' & -> & Hb' & Hbefore).
              exists (b :: before), b'. repeat split; try done.
              cbn [concat]. apply existsb_app_false. done.
    + exists [], true, []. rewrite drop_ge by lia. repeat split; try done.
Qed.

(** X16. For a rate of at least 1, [impulse] ends after at most one
    iteration per id. The batches it hands to [_dl] are consecutive slices
    of the ids, in order, each of 1 to [rate] ids and all but the last of
    exactly [rate]. When no [_dl] rejects, every id is in exactly one batch;
    otherwise the batches stop with the first one that holds a rejecting
    id, and the ids after it are not downloaded. *)
Theorem impulse_batches {A} (rejects : A -> bool) (ids : list A) (rate fuel : nat) :
  1 <= rate ->
  length ids <= fuel ->
  exists batches ok rest,
    Legacy.impulse rejects fuel ids rate = Some (batches, ok)
    /\ ids = concat batches ++ rest
    /\ Forall (fun b => 1 <= length b <= rate) batches
    /\ (forall k b, batches !! k = Some b -> S k < length batches -> length b = rate)
    /\ (if ok then rest = [] /\ existsb rejects ids = false
        else exists before b,
               batches = before ++ [b]
               /\ existsb rejects b = true
               /\ existsb rejects (concat before) = false).
Proof.
  intros Hrate Hfuel.
  destruct (impulse_from_batches rejects ids rate Hrate fuel 0)
    as (bs & ok & rest & Heq & Hdrop & Hsz & Hfull & Hok); [simpl; lia|].
  change (drop (0 * rate) ids) with ids in Hdrop.
  exists bs, ok, rest. unfold Legacy.impulse.
  repeat split; try done.
  destruct ok; [|done]. destruct Hok as [-> Hno]. split; [done|].
  by rewrite Hdrop, app_nil_r.
Qed.

Lemma impulse_batches_witness :
  exists batches ok rest,
    Legacy.impulse (fun n => (n =? 5)%nat) 7 [1; 2; 3; 4; 5; 6; 7] 3 = Some (batches, ok)
    /\ [1; 2; 3; 4; 5; 6; 7] = concat batches ++ rest
    /\ Forall (fun b => 1 <= length b <= 3) batches
    /\ (forall k b, batches !! k = Some b -> S k < length batches -> length b = 3)
    /\ (if ok then rest = [] /\ existsb (fun n => (n =? 5)%nat) [1; 2; 3; 4; 5; 6; 7] = false
        else exists before b,
               batches = before ++ [b]
               /\ existsb (fun n => (n =? 5)%nat) b = true
               /\ existsb (fun n => (n =? 5)%nat) (concat before) = false).
Proof.
  refine (impulse_batches (fun n => (n =? 5)%nat) [1; 2; 3; 4; 5; 6; 7] 3 7 _ _);
    simpl; lia.
Defined.

Lemma impulse_from_rate_0 {A} (rejects : A -> bool) (ids : list A) :
  ids <> [] -> forall fuel i, Legacy.impulse_from rejects fuel ids 0 i = None.
Proof.
  intros Hne. induction fuel as [|fuel IH]; intros i; cbn [Legacy.impulse_from];
    rewrite Nat.mul_0_r;
    (destruct (Nat.ltb_spec 0 (length ids)) as [_|Hlen];
     [|destruct ids; [done|simpl in Hlen; lia]]).
  - done.
  - unfold Legacy.slice. rewrite Nat.mul_0_r. simpl. by rewrite IH.
Qed.

(** X17. With rate 0 the loop of [impulse] never ends for a non-empty list:
    the test compares the counter with an infinite quotient and every
    iteration hands an empty batch to [_dl], so no id is ever downloaded and
    the call never returns, however many iterations are allowed. For an
    empty list it returns at once with no batch, whatever the rate. *)
Theorem impulse_rate_0_never_returns {A} (rejects : A -> bool) (ids : list A) (fuel : nat) :
  (ids <> [] -> Legacy.impulse rejects fuel ids 0 = None)
  /\ (forall rate, Legacy.impulse rejects fuel [] rate = Some ([], true)).
Proof.
  split.
  - intros Hne. by apply impulse_from_rate_0.
  - intros rate. unfold Legacy.impulse. destruct fuel; reflexivity.
Qed.

Lemma impulse_rate_0_never_returns_witness :
  Legacy.impulse (fun _ : nat => false) 1000 [1; 2; 3] 0 = None.
Proof.
  refine (proj1 (impulse_rate_0_never_returns (fun _ : nat => false) [1; 2; 3] 1000) _).
  discriminate.
Defined.
